(** * The jail cell of status-go: lifecycle, shutdown and asynchronous calls

    A shallow embedding of [geth/jail/cell.go] and the properties of its
    specification.  The cell is a concurrent object: [NewCell] starts a
    goroutine that runs the event loop, [Stop] and [CallAsync] are called
    from other threads.  The embedding is a labelled transition system whose
    step function is executable: every thread has a program counter that
    follows the Go statements of its function, the shared [*Cell] is one
    record in the global state, and time is a clock in nanoseconds. *)

From Stdlib Require Import NArith ZArith Lia.
From stdpp Require Import base option list strings numbers.

Local Open Scope N_scope.

(** ** Go error values

    An [error] is an interface value: [nil], or a pointer to an error object.
    Interface comparison ([==], [!=]) of two such values is pointer
    identity, so the object store is explicit: an address is an index into
    the list of allocated [errorString] objects. *)

Definition error : Type := option nat.

Definition error_nil : error := None.

Abbreviation Heap := (list string).

(** [errors.New(text)]: allocates an object of its own on every call. *)
Definition errors_New (text : string) (h : Heap) : error * Heap :=
  (Some (length h), h ++ [text]).

(** [err.Error()] *)
Definition Error (h : Heap) (err : error) : option string :=
  match err with
  | Some a => h !! a
  | None => None
  end.

(** [context.Canceled] is a package-level sentinel, allocated once when the
    program starts: it lives at address 0 of the initial store. *)
Definition context_Canceled : error := Some 0%nat.

Definition boot_heap : Heap := ["context canceled"].

Definition allocated (h : Heap) (err : error) : Prop :=
  match err with
  | Some a => (a < length h)%nat
  | None => True
  end.

(** [time.Second], in nanoseconds ([time.Duration]). *)
Definition time_Second : N := 1000000000.

(** ** Interpreter values

    [otto.Value]: the kinds of value the interpreter hands out.  The
    variadic [args ...interface{}] of [CallAsync] are converted to such
    values when the call is made. *)

Inductive Value : Type :=
| ValUndefined
| ValNull
| ValBoolean (b : bool)
| ValNumber (n : Z)
| ValString (s : string)
| ValObject (ref : nat).

(** ** The event loop's tasks *)

(** Modelled from the spec: the package [internal/loop] ([Loop], [Task],
    [Add], [Ready]) and [looptask.NewCallTask] are not among the sources.
    "Task: identity (id, unique within its Loop), a variant tag, a body (the
    interpreter-visible function plus captured arguments), a
    scheduled-readiness time (immediate, or now+delay, or repeating period),
    and an optional completion signal used to unblock a waiting external
    caller." *)
Inductive TaskTag : Type :=
| Call
| TimerOneShot
| TimerRepeating
| IOCompletion.

(** Modelled from the spec: the scheduled-readiness time of a task of the
    absent [internal/loop], "immediate, or now+delay, or repeating
    period". *)
Inductive Readiness : Type :=
| Immediate
| After (delay : N)
| Every (period : N).

(** Modelled from the spec: the state of a task of the absent
    [internal/loop], "pending → ready → executing → done, or cancelled
    before executing". *)
Inductive TaskState : Type :=
| Pending
| Ready
| Executing
| Done
| Cancelled.

(** Modelled from the spec: what the absent interpreter gives for a task
    body, "call function with arguments, synchronously, returning
    value-or-exception": a value, or a script-level exception (a thrown
    value). *)
Inductive Outcome : Type :=
| Returned (v : Value)
| Threw (exc : Value).

(** Modelled from the spec: the [Task] of the absent [internal/loop], with
    the parts the sentence above lists, its state, and the absolute time
    [readyAt] its readiness amounts to once it is added. *)
Record Task : Type := mkTask {
  task_id : nat;
  tag : TaskTag;
  fn : Value;
  args : list Value;
  readiness : Readiness;
  readyAt : N;
  state : TaskState;
  (** [None]: no completion signal; [Some None]: a signal nobody has
      written yet; [Some (Some o)]: the loop delivered [o]. *)
  completion : option (option Outcome)
}.

(** Modelled from the spec: [looptask.NewCallTask(fn, args...)], a Call task
    with immediate readiness and a completion signal for the caller that
    will wait on it. *)
Definition NewCallTask (fn : Value) (args : list Value) : Task :=
  {| task_id := 0; tag := Call; fn := fn; args := args;
     readiness := Immediate; readyAt := 0; state := Pending;
     completion := Some None |}.

(** Modelled from the spec: the Loop "owns an ordered collection of pending
    Tasks plus a readiness indicator per Task".  Identifiers are handed out
    in order, so a task's id is its position in [tasks]; a task that was
    executed stays in the collection in state [Done]. *)
Record Loop : Type := mkLoop {
  tasks : list Task
}.

(** Modelled from the spec: [loop.New(vm)] of the absent [internal/loop], a
    loop with no task. *)
Definition loop_New : Loop := {| tasks := [] |}.

(** Modelled from the spec: the time at which a task added at [now] is due,
    "immediate, or now+delay", and for a repeating timer "firing-time +
    periodMs" ([Add] of the absent [internal/loop] uses it). *)
Definition scheduled (now : N) (r : Readiness) : N :=
  match r with
  | Immediate => now
  | After delay => now + delay
  | Every period => now + period
  end.

(** Modelled from the spec: "[Add(task)]: enqueues a Task in pending state
    with its scheduled-readiness time; returns the Task's id." *)
Definition Add (now : N) (t : Task) (lo : Loop) : nat * Loop :=
  let i := length (tasks lo) in
  (i, {| tasks := tasks lo ++
           [ {| task_id := i; tag := tag t; fn := fn t; args := args t;
                readiness := readiness t;
                readyAt := scheduled now (readiness t);
                state := Pending; completion := completion t |} ] |}).

(** Modelled from the spec: what [Ready] of the absent [internal/loop] does
    to the task: "a Task marked Ready via Loop.Ready becomes eligible
    immediately".  A task that is past [Pending] is left as it is. *)
Definition mark_ready (now : N) (t : Task) : Task :=
  match state t with
  | Pending =>
      {| task_id := task_id t; tag := tag t; fn := fn t; args := args t;
         readiness := readiness t; readyAt := N.min (readyAt t) now;
         state := Ready; completion := completion t |}
  | _ => t
  end.

(** Modelled from the spec: "[Ready(task)]: marks a Task as immediately
    runnable and, for the immediate-call use case, blocks the calling thread
    until that specific Task has finished executing on the Loop's thread."
    This is the marking; the blocking is a guard of the caller's next step
    ([finished]). *)
Definition Ready_mark (now : N) (i : nat) (lo : Loop) : Loop :=
  match tasks lo !! i with
  | Some t => {| tasks := <[i := mark_ready now t]> (tasks lo) |}
  | None => lo
  end.

(** Modelled from the spec: what the caller of [Ready] of the absent
    [internal/loop] waits for, "until that specific Task has finished
    executing". *)
Definition finished (i : nat) (lo : Loop) : bool :=
  match tasks lo !! i with
  | Some t => match state t with Done => true | _ => false end
  | None => false
  end.

(** Modelled from the spec: "a Task becomes eligible when its
    scheduled-readiness time has elapsed or it was explicitly marked
    Ready". *)
Definition eligible (now : N) (t : Task) : bool :=
  match state t with
  | Ready => true
  | Pending => readyAt t <=? now
  | _ => false
  end.

(** Modelled from the spec: "among eligible Tasks, the one with the earliest
    readiness time runs first; ties broken by the order Tasks became
    eligible". *)
Fixpoint earliest (now : N) (q : list Task) (best : option Task) : option Task :=
  match q with
  | [] => best
  | t :: q' =>
      earliest now q'
        (if eligible now t then
           match best with
           | Some b => if readyAt t <? readyAt b then Some t else Some b
           | None => Some t
           end
         else best)
  end.

(** Modelled from the spec: the task [Run] of the absent [internal/loop]
    takes next, "pick the earliest-eligible Task". *)
Definition pick (now : N) (lo : Loop) : option Task := earliest now (tasks lo) None.

(** Modelled from the spec: what [Run] of the absent [internal/loop] does
    with the outcome, "deliver the result/error to the Task's completion
    signal if present". *)
Definition deliver (o : Outcome) (c : option (option Outcome)) : option (option Outcome) :=
  match c with
  | Some _ => Some (Some o)
  | None => None
  end.

(** Modelled from the spec: one iteration of [Run]: "execute its body
    against the interpreter, deliver the result/error to the Task's
    completion signal if present, and for repeating timers re-enqueue a
    fresh occurrence".  The interpreter is outside this development: the
    outcome [o] of the body is given. *)
Definition execute (now : N) (t : Task) (o : Outcome) (lo : Loop) : Loop :=
  let done :=
    {| task_id := task_id t; tag := tag t; fn := fn t; args := args t;
       readiness := readiness t; readyAt := readyAt t;
       state := Done; completion := deliver o (completion t) |} in
  let lo' := {| tasks := <[task_id t := done]> (tasks lo) |} in
  match readiness t with
  | Every _ => snd (Add now t lo')
  | _ => lo'
  end.

(** ** The cell *)

(** The host side that [cell.go] calls into but does not define: the
    interpreter behind [*vm.VM] and the two registrations,
    [timers.Define(vm, lo)] and [fetch.Define(vm, lo)].  A registration
    changes the interpreter's globals and returns an [error]. *)
Class Host : Type := {
  vm_VM : Type;
  vm_New : vm_VM;
  timers_Define : vm_VM -> Loop -> error * vm_VM;
  fetch_Define : vm_VM -> Loop -> error * vm_VM
}.

(** [context.WithCancel(context.Background())]: the context is a one-shot
    flag, [cancel] trips it. *)
Record Context : Type := { ctx_done : bool }.

Definition context_WithCancel : Context := {| ctx_done := false |}.

Definition trip (c : Context) : Context := {| ctx_done := true |}.

Section WithHost.
Context `{Host}.

(** [type Cell struct].  The field [cancel] is a closure over the context;
    the record holds that context.  [loopStopped] is a channel that is only
    ever closed: the state of the channel is whether it is closed. *)
Record Cell : Type := mkCell {
  VM : vm_VM;
  cell_id : string;
  cancel : Context;
  loop : Loop;
  loopStopped : bool;
  loopErr : error
}.

(** [registerVMHandlers(vm, lo)] *)
Definition registerVMHandlers (vm : vm_VM) (lo : Loop) : error * vm_VM :=
  let '(err, vm) := timers_Define vm lo in
  if bool_decide (err ≠ error_nil) then (err, vm)
  else
    let '(err, vm) := fetch_Define vm lo in
    if bool_decide (err ≠ error_nil) then (err, vm)
    else (error_nil, vm).

(** ** Threads and the global state *)

(** What [lo.Run(ctx)] hands back.  [Run] is not among the sources; its
    type lets it return any [error]: [nil], the sentinel
    [context.Canceled], or an error object of the loop's own making (built
    with the given text when [Run] returns).  The properties of the
    goroutine and of [Stop] that do not depend on what [Run] is are proved
    for all three; the [Run] the spec describes never returns [nil]
    ([as_specified] below). *)
Inductive RunResult : Type :=
| RunNil
| RunCanceled
| RunError (text : string).

Definition run_result (r : RunResult) (h : Heap) : error * Heap :=
  match r with
  | RunNil => (error_nil, h)
  | RunCanceled => (context_Canceled, h)
  | RunError text => errors_New text h
  end.

(** The goroutine started by [NewCell]:
<<
    go func() {
        err := lo.Run(ctx)                 // GRun
        if err != context.Canceled {       // GAfterRun err
            cell.loopErr = err             // GAssign err
        }
        close(loopStopped)                 // GClose
    }()                                    // GDone t, finished at time t
>> *)
Inductive LoopPC : Type :=
| GRun
| GAfterRun (err : error)
| GAssign (err : error)
| GClose
| GDone (at_ : N).

(** The two cases of the [select] in [Stop]. *)
Inductive Branch : Type :=
| ExitSignal
| TimerFired.

(** A thread inside [c.Stop()]:
<<
    c.cancel()                             // StopEntered
    select {                               // StopArming: time.After(time.Second)
    case <-c.loopStopped:                  // StopSelect since
        return c.loopErr
    case <-time.After(time.Second):
        return errors.New("stopping the cell timed out")
    }                                      // StopReturned since at branch result
>> *)
Inductive StopPC : Type :=
| StopEntered
| StopArming
| StopSelect (since : N)
| StopReturned (since at_ : N) (b : Branch) (r : error).

(** A thread inside [c.CallAsync(fn, args...)]:
<<
    task := looptask.NewCallTask(fn, args...)   // CallEntered fn args
    c.loop.Add(task)                            // CallHasTask task
    c.loop.Ready(task)                          // CallAdded i, then CallBlocked i
                                                // CallReturned i
>>
    [fn] and [args] are the parameters of the call, [i] the id of the task
    it submitted.  The function has no results: a thread that returned
    holds nothing new. *)
Inductive CallPC : Type :=
| CallEntered (fn : Value) (args : list Value)
| CallHasTask (fn : Value) (args : list Value) (task : Task)
| CallAdded (fn : Value) (args : list Value) (i : nat)
| CallBlocked (fn : Value) (args : list Value) (i : nat)
| CallReturned (fn : Value) (args : list Value) (i : nat).

(** What the threads do, in the order they do it. *)
Inductive Event : Type :=
| EvRunReturned (err : error)
| EvLoopErrAssigned (err : error)
| EvLoopStoppedClosed
| EvExecuted (i : nat) (o : Outcome)
| EvCancel (tid : nat)
| EvSelect (tid : nat)
| EvStopReturned (tid : nat) (b : Branch) (r : error)
| EvNewCallTask (tid : nat) (fn : Value) (args : list Value)
| EvAdd (tid : nat) (i : nat)
| EvReady (tid : nat) (i : nat)
| EvCallAsyncReturned (tid : nat).

Record State : Type := mkState {
  cell : Cell;            (* the one [Cell] all threads point to *)
  heap : Heap;
  clock : N;
  gpc : LoopPC;
  stops : list StopPC;    (* the threads that called [Stop], by thread id *)
  calls : list CallPC;    (* the threads that called [CallAsync] *)
  log : list Event
}.

Definition set_cell (c : Cell) (s : State) : State :=
  {| cell := c; heap := heap s; clock := clock s; gpc := gpc s;
     stops := stops s; calls := calls s; log := log s |}.

Definition set_heap (h : Heap) (s : State) : State :=
  {| cell := cell s; heap := h; clock := clock s; gpc := gpc s;
     stops := stops s; calls := calls s; log := log s |}.

Definition set_clock (t : N) (s : State) : State :=
  {| cell := cell s; heap := heap s; clock := t; gpc := gpc s;
     stops := stops s; calls := calls s; log := log s |}.

Definition set_gpc (pc : LoopPC) (s : State) : State :=
  {| cell := cell s; heap := heap s; clock := clock s; gpc := pc;
     stops := stops s; calls := calls s; log := log s |}.

Definition set_stops (l : list StopPC) (s : State) : State :=
  {| cell := cell s; heap := heap s; clock := clock s; gpc := gpc s;
     stops := l; calls := calls s; log := log s |}.

Definition set_calls (l : list CallPC) (s : State) : State :=
  {| cell := cell s; heap := heap s; clock := clock s; gpc := gpc s;
     stops := stops s; calls := l; log := log s |}.

Definition emit (e : Event) (s : State) : State :=
  {| cell := cell s; heap := heap s; clock := clock s; gpc := gpc s;
     stops := stops s; calls := calls s; log := log s ++ [e] |}.

Definition set_cancel (x : Context) (c : Cell) : Cell :=
  {| VM := VM c; cell_id := cell_id c; cancel := x; loop := loop c;
     loopStopped := loopStopped c; loopErr := loopErr c |}.

Definition set_loop (lo : Loop) (c : Cell) : Cell :=
  {| VM := VM c; cell_id := cell_id c; cancel := cancel c; loop := lo;
     loopStopped := loopStopped c; loopErr := loopErr c |}.

Definition set_loopStopped (b : bool) (c : Cell) : Cell :=
  {| VM := VM c; cell_id := cell_id c; cancel := cancel c; loop := loop c;
     loopStopped := b; loopErr := loopErr c |}.

Definition set_loopErr (err : error) (c : Cell) : Cell :=
  {| VM := VM c; cell_id := cell_id c; cancel := cancel c; loop := loop c;
     loopStopped := loopStopped c; loopErr := err |}.

(** [NewCell(id)].  The call to [registerVMHandlers] is an expression
    statement: its effect on the interpreter stays, its [error] is dropped.
    The function has one result, the [*Cell]; the goroutine it started is at
    its first statement when [NewCell] returns. *)
Definition NewCell (id : string) : State :=
  let vm := vm_New in
  let lo := loop_New in
  let vm := snd (registerVMHandlers vm lo) in
  let ctx := context_WithCancel in
  let cell :=
    {| VM := vm; cell_id := id; cancel := ctx; loop := lo;
       loopStopped := false; loopErr := error_nil |} in
  {| cell := cell; heap := boot_heap; clock := 0; gpc := GRun;
     stops := []; calls := []; log := [] |}.

(** ** Steps *)

Inductive Label : Type :=
| RunReturns (r : RunResult)              (* [lo.Run(ctx)] returns *)
| LoopExec (o : Outcome)                  (* [lo.Run(ctx)] executes a task *)
| LoopGo                                  (* next statement of the goroutine *)
| StopCall                                (* a thread calls [c.Stop()] *)
| StopGo (tid : nat)                      (* its next statement *)
| StopWake (tid : nat) (b : Branch)       (* its [select] takes a case *)
| CallAsyncCall (fn : Value) (args : list Value)
| CallAsyncGo (tid : nat)
| Advance (d : N).                        (* time passes *)

(** A [select] with a case that can proceed does not wait, and the timer
    case can proceed once a second has passed: time does not pass a waiting
    [select] by. *)
Definition may_wait (s : State) (d : N) : bool :=
  forallb
    (fun th =>
       match th with
       | StopSelect since =>
           (clock s + d <=? since + time_Second)
           && (negb (loopStopped (cell s)) || (d =? 0))
       | _ => true
       end)
    (stops s).

Definition step_loop (s : State) : option State :=
  match gpc s with
  | GRun => None
  | GAfterRun err =>
      if bool_decide (err ≠ context_Canceled)
      then Some (set_gpc (GAssign err) s)
      else Some (set_gpc GClose s)
  | GAssign err =>
      Some (emit (EvLoopErrAssigned err)
              (set_gpc GClose (set_cell (set_loopErr err (cell s)) s)))
  | GClose =>
      Some (emit EvLoopStoppedClosed
              (set_gpc (GDone (clock s))
                 (set_cell (set_loopStopped true (cell s)) s)))
  | GDone _ => None
  end.

Definition step_stop (tid : nat) (s : State) : option State :=
  match stops s !! tid with
  | Some StopEntered =>
      Some (emit (EvCancel tid)
              (set_stops (<[tid := StopArming]> (stops s))
                 (set_cell (set_cancel (trip (cancel (cell s))) (cell s)) s)))
  | Some StopArming =>
      Some (emit (EvSelect tid)
              (set_stops (<[tid := StopSelect (clock s)]> (stops s)) s))
  | _ => None
  end.

Definition step_wake (tid : nat) (b : Branch) (s : State) : option State :=
  match stops s !! tid with
  | Some (StopSelect since) =>
      match b with
      | ExitSignal =>
          if loopStopped (cell s) then
            let r := loopErr (cell s) in
            Some (emit (EvStopReturned tid ExitSignal r)
                    (set_stops
                       (<[tid := StopReturned since (clock s) ExitSignal r]> (stops s)) s))
          else None
      | TimerFired =>
          if since + time_Second <=? clock s then
            let '(r, h) := errors_New "stopping the cell timed out" (heap s) in
            Some (emit (EvStopReturned tid TimerFired r)
                    (set_stops
                       (<[tid := StopReturned since (clock s) TimerFired r]> (stops s))
                       (set_heap h s)))
          else None
      end
  | _ => None
  end.

Definition step_call (tid : nat) (s : State) : option State :=
  match calls s !! tid with
  | Some (CallEntered fn args) =>
      Some (emit (EvNewCallTask tid fn args)
              (set_calls
                 (<[tid := CallHasTask fn args (NewCallTask fn args)]> (calls s)) s))
  | Some (CallHasTask fn args task) =>
      let '(i, lo) := Add (clock s) task (loop (cell s)) in
      Some (emit (EvAdd tid i)
              (set_calls (<[tid := CallAdded fn args i]> (calls s))
                 (set_cell (set_loop lo (cell s)) s)))
  | Some (CallAdded fn args i) =>
      Some (emit (EvReady tid i)
              (set_calls (<[tid := CallBlocked fn args i]> (calls s))
                 (set_cell
                    (set_loop (Ready_mark (clock s) i (loop (cell s))) (cell s)) s)))
  | Some (CallBlocked fn args i) =>
      if finished i (loop (cell s)) then
        Some (emit (EvCallAsyncReturned tid)
                (set_calls (<[tid := CallReturned fn args i]> (calls s)) s))
      else None
  | _ => None
  end.

(** Modelled from the spec: one iteration of [Run] of the absent
    [internal/loop], on the goroutine, while [Run] has not returned: "Between
    each Task's execution (never during one), check the cancellation signal;
    if tripped, stop picking new Tasks", else pick the earliest eligible task
    and execute it.  A script-level exception is an outcome [o] like any
    other: it goes to the completion signal, [Run] goes on. *)
Definition step_exec (o : Outcome) (s : State) : option State :=
  match gpc s with
  | GRun =>
      if ctx_done (cancel (cell s)) then None
      else
        match pick (clock s) (loop (cell s)) with
        | Some t =>
            Some (emit (EvExecuted (task_id t) o)
                    (set_cell
                       (set_loop (execute (clock s) t o (loop (cell s))) (cell s)) s))
        | None => None
        end
  | _ => None
  end.

(** One step of one thread, or of the clock.  [None]: the step cannot be
    taken in [s] (the thread is blocked, or is not at that statement). *)
Definition step (s : State) (l : Label) : option State :=
  match l with
  | RunReturns r =>
      match gpc s with
      | GRun =>
          let '(err, h) := run_result r (heap s) in
          Some (emit (EvRunReturned err) (set_gpc (GAfterRun err) (set_heap h s)))
      | _ => None
      end
  | LoopExec o => step_exec o s
  | LoopGo => step_loop s
  | StopCall => Some (set_stops (stops s ++ [StopEntered]) s)
  | StopGo tid => step_stop tid s
  | StopWake tid b => step_wake tid b s
  | CallAsyncCall fn args => Some (set_calls (calls s ++ [CallEntered fn args]) s)
  | CallAsyncGo tid => step_call tid s
  | Advance d =>
      if may_wait s d then Some (set_clock (clock s + d) s) else None
  end.

Fixpoint run (s : State) (ls : list Label) : option State :=
  match ls with
  | [] => Some s
  | l :: ls' =>
      match step s l with
      | Some s' => run s' ls'
      | None => None
      end
  end.

(** The states a cell made by [NewCell] can get into. *)
Definition reachable (s : State) : Prop :=
  ∃ id ls, run (NewCell id) ls = Some s.

(** ** Invariants of the reachable states *)

Definition loop_event (e : Event) : bool :=
  match e with
  | EvRunReturned _ | EvLoopErrAssigned _ | EvLoopStoppedClosed => true
  | _ => false
  end.

(** The goroutine's own events, in order. *)
Definition loop_events (l : list Event) : list Event := List.filter loop_event l.

(** What the goroutine leaves in [loopErr] when [Run] returned [err], and
    the assignments it makes on the way. *)
Definition terminal (err : error) : error :=
  if bool_decide (err ≠ context_Canceled) then err else error_nil.

Definition assignments (err : error) : list Event :=
  if bool_decide (err ≠ context_Canceled) then [EvLoopErrAssigned err] else [].

Definition loop_inv (s : State) : Prop :=
  match gpc s with
  | GRun =>
      loop_events (log s) = []
      ∧ loopErr (cell s) = error_nil ∧ loopStopped (cell s) = false
  | GAfterRun err =>
      loop_events (log s) = [EvRunReturned err]
      ∧ loopErr (cell s) = error_nil ∧ loopStopped (cell s) = false
  | GAssign err =>
      loop_events (log s) = [EvRunReturned err] ∧ err ≠ context_Canceled
      ∧ loopErr (cell s) = error_nil ∧ loopStopped (cell s) = false
  | GClose =>
      ∃ err, loop_events (log s) = EvRunReturned err :: assignments err
             ∧ loopErr (cell s) = terminal err ∧ loopStopped (cell s) = false
  | GDone t =>
      ∃ err, loop_events (log s)
               = EvRunReturned err :: assignments err ++ [EvLoopStoppedClosed]
             ∧ loopErr (cell s) = terminal err ∧ loopStopped (cell s) = true
             ∧ t <= clock s
  end.

(** A thread in [Stop] has tripped the controller before it waits, waits
    no longer than a second, and what it returns is fixed by the case its
    [select] took. *)
Definition stop_inv (s : State) : Prop :=
  ∀ tid pc, stops s !! tid = Some pc ->
    match pc with
    | StopEntered => True
    | StopArming =>
        ctx_done (cancel (cell s)) = true
        ∧ [EvCancel tid] `sublist_of` log s
    | StopSelect since =>
        ctx_done (cancel (cell s)) = true
        ∧ [EvCancel tid; EvSelect tid] `sublist_of` log s
        ∧ since <= clock s ∧ clock s <= since + time_Second
        ∧ (∀ t, gpc s = GDone t -> clock s = N.max t since)
    | StopReturned since at_ ExitSignal r =>
        ctx_done (cancel (cell s)) = true
        ∧ [EvCancel tid; EvSelect tid; EvStopReturned tid ExitSignal r] `sublist_of` log s
        ∧ r = loopErr (cell s)
        ∧ at_ <= clock s ∧ at_ <= since + time_Second
        ∧ ∃ t, gpc s = GDone t ∧ at_ = N.max t since
    | StopReturned since at_ TimerFired r =>
        ctx_done (cancel (cell s)) = true
        ∧ [EvCancel tid; EvSelect tid; EvStopReturned tid TimerFired r] `sublist_of` log s
        ∧ at_ = since + time_Second ∧ at_ <= clock s
        ∧ (∀ t, gpc s = GDone t -> at_ <= t)
    end.

(** The error values the goroutine can reach. *)
Definition held_by_loop (s : State) (err : error) : Prop :=
  err = loopErr (cell s) ∨ err = context_Canceled
  ∨ gpc s = GAfterRun err ∨ gpc s = GAssign err.

Definition heap_inv (s : State) : Prop :=
  (0 < length (heap s))%nat
  ∧ (∀ err, held_by_loop s err -> allocated (heap s) err)
  ∧ (∀ tid since at_ r,
       stops s !! tid = Some (StopReturned since at_ TimerFired r) ->
       allocated (heap s) r
       ∧ Error (heap s) r = Some "stopping the cell timed out"
       ∧ ¬ held_by_loop s r
       ∧ ∀ tid' since' at' r',
           tid' ≠ tid ->
           stops s !! tid' = Some (StopReturned since' at' TimerFired r') ->
           r' ≠ r).

(** Task [i] of the loop is the Call task of [fn] and [args], with a
    completion signal. *)
Definition is_call_task (lo : Loop) (i : nat) (fn0 : Value) (args0 : list Value) : Prop :=
  ∃ t, tasks lo !! i = Some t ∧ tag t = Call ∧ fn t = fn0 ∧ args t = args0
       ∧ is_Some (completion t).

Definition task_inv (s : State) : Prop :=
  ∀ i t, tasks (loop (cell s)) !! i = Some t ->
    task_id t = i
    ∧ (state t = Done -> ∃ o, In (EvExecuted i o) (log s)).

(** [lo'] still has every task of [lo], with the same tag, function,
    arguments and presence of a completion signal. *)
Definition keeps (lo lo' : Loop) : Prop :=
  ∀ i t, tasks lo !! i = Some t ->
    ∃ t', tasks lo' !! i = Some t' ∧ tag t' = tag t ∧ fn t' = fn t
          ∧ args t' = args t ∧ (is_Some (completion t) -> is_Some (completion t')).

(** A thread in [CallAsync] has done the statements before its program
    counter, in order; it has returned only after the loop executed its
    task. *)
Definition call_ok (s : State) (tid : nat) (pc : CallPC) : Prop :=
  match pc with
  | CallEntered fn0 args0 => True
  | CallHasTask fn0 args0 task =>
      task = NewCallTask fn0 args0
      ∧ [EvNewCallTask tid fn0 args0] `sublist_of` log s
  | CallAdded fn0 args0 i =>
      [EvNewCallTask tid fn0 args0; EvAdd tid i] `sublist_of` log s
      ∧ is_call_task (loop (cell s)) i fn0 args0
  | CallBlocked fn0 args0 i =>
      [EvNewCallTask tid fn0 args0; EvAdd tid i; EvReady tid i] `sublist_of` log s
      ∧ is_call_task (loop (cell s)) i fn0 args0
  | CallReturned fn0 args0 i =>
      [EvNewCallTask tid fn0 args0; EvAdd tid i; EvReady tid i;
       EvCallAsyncReturned tid] `sublist_of` log s
      ∧ (∃ o, [EvExecuted i o; EvCallAsyncReturned tid] `sublist_of` log s)
      ∧ is_call_task (loop (cell s)) i fn0 args0
  end.

Definition call_inv (s : State) : Prop :=
  ∀ tid pc, calls s !! tid = Some pc -> call_ok s tid pc.

Definition invariant (s : State) : Prop :=
  loop_inv s ∧ stop_inv s ∧ heap_inv s ∧ task_inv s ∧ call_inv s.

(** The controller is tripped exactly when some [Stop] has run its
    [c.cancel()], and the thread that did is past that statement. *)
Definition cancel_inv (s : State) : Prop :=
  (ctx_done (cancel (cell s)) = true <-> ∃ tid, In (EvCancel tid) (log s))
  ∧ ∀ tid, In (EvCancel tid) (log s) ->
      ∃ pc, stops s !! tid = Some pc ∧ pc ≠ StopEntered.

(** A [Stop] that returned through the exit-signal case did so after the
    close, which came after the return of [Run]. *)
Definition exit_order_inv (s : State) : Prop :=
  ∀ tid since at_ r,
    stops s !! tid = Some (StopReturned since at_ ExitSignal r) ->
    ∃ err, [EvRunReturned err; EvLoopStoppedClosed; EvStopReturned tid ExitSignal r]
             `sublist_of` log s.

Definition execution (e : Event) : bool :=
  match e with
  | EvExecuted _ _ => true
  | _ => false
  end.

(** The executions of tasks, in order. *)
Definition executions (l : list Event) : list Event := List.filter execution l.

(** The task a thread in [CallAsync] has added to the loop, if it is that
    far. *)
Definition task_of (pc : CallPC) : option nat :=
  match pc with
  | CallEntered _ _ | CallHasTask _ _ _ => None
  | CallAdded _ _ i | CallBlocked _ _ i | CallReturned _ _ i => Some i
  end.

(** The tasks of the threads in [CallAsync] are in the loop, one per
    thread. *)
Definition own_inv (s : State) : Prop :=
  ∀ tid pc i, calls s !! tid = Some pc -> task_of pc = Some i ->
    (i < length (tasks (loop (cell s))))%nat
    ∧ ∀ tid' pc', tid' ≠ tid -> calls s !! tid' = Some pc' -> task_of pc' ≠ Some i.

(** The ids of the tasks that were executed, in order. *)
Fixpoint executed_ids (l : list Event) : list nat :=
  match l with
  | [] => []
  | EvExecuted i _ :: l' => i :: executed_ids l'
  | _ :: l' => executed_ids l'
  end.

(** No task was executed twice, and the executed ones are finished. *)
Definition once_inv (s : State) : Prop :=
  NoDup (executed_ids (log s))
  ∧ ∀ i, In i (executed_ids (log s)) -> finished i (loop (cell s)) = true.

(** Modelled from the spec: what [Run] of the absent [internal/loop]
    returns.  "If tripped, stop picking new Tasks and return a
    cancellation-classified result.  If a Task body raises a fatal,
    non-recoverable error ..., the Loop stores that error as its terminal
    error and also stops": the cancellation result or the error of the
    fault, never [nil]. *)
Definition as_specified (l : Label) : bool :=
  match l with
  | RunReturns RunNil => false
  | _ => true
  end.

(** The states a cell made by [NewCell] gets into when [Run] returns as the
    spec says. *)
Definition reachable_as_specified (s : State) : Prop :=
  ∃ id ls, forallb as_specified ls = true ∧ run (NewCell id) ls = Some s.


End WithHost.

Arguments Cell {_}.
Arguments State {_}.

(** ** Two hosts to run the definitions on

    The interpreter's state is the list of global names bound so far. *)

Definition plain_host : Host :=
  {| vm_VM := list string;
     vm_New := [];
     timers_Define := fun vm _ =>
       (error_nil, vm ++ ["setTimeout"; "setInterval"; "clearTimeout"; "clearInterval"]);
     fetch_Define := fun vm _ => (error_nil, vm ++ ["fetch"]) |}.

(** A host whose timer registration fails (with some error object of the
    timers package, at address 1). *)
Definition failing_host : Host :=
  {| vm_VM := list string;
     vm_New := [];
     timers_Define := fun vm _ => (Some 1%nat, vm);
     fetch_Define := fun vm _ => (error_nil, vm ++ ["fetch"]) |}.

(** The same host with another fetch registration. *)
Definition with_fetch `{Host} (f : vm_VM -> Loop -> error * vm_VM) : Host :=
  {| vm_VM := vm_VM; vm_New := vm_New;
     timers_Define := timers_Define; fetch_Define := f |}.

(** One call of [CallAsync] on a fresh cell, up to its return; [o] is what
    the body of the call does in the interpreter. *)
Definition call_scenario (o : Outcome) : list Label :=
  [CallAsyncCall (ValObject 1) [ValNumber 2]; CallAsyncGo 0; CallAsyncGo 0;
   CallAsyncGo 0; LoopExec o; CallAsyncGo 0].

(** [Stop] on a cell whose loop returns the cancellation result. *)
Definition stop_cancelled : list Label :=
  [StopCall; StopGo 0; StopGo 0; RunReturns RunCanceled; LoopGo; LoopGo;
   StopWake 0 ExitSignal].

(** [Stop] on a cell whose loop does not return within the second. *)
Definition stop_timed_out : list Label :=
  [StopCall; StopGo 0; StopGo 0; Advance time_Second; StopWake 0 TimerFired].

(** A [Stop] that timed out, the loop failing later, and a second [Stop]. *)
Definition stop_twice : list Label :=
  stop_timed_out
  ++ [RunReturns (RunError "interpreter fault"); LoopGo; LoopGo; LoopGo;
      StopCall; StopGo 1; StopGo 1; StopWake 1 ExitSignal].

(** The state a list of steps leads to from a fresh cell (the fresh cell
    itself when the steps cannot be taken). *)
Definition after `{Host} (ls : list Label) : State :=
  default (NewCell "cell") (run (NewCell "cell") ls).

(** A [CallAsync] that has added and marked its task, then a [Stop] that
    trips the controller before the loop gets to the task. *)
Definition call_then_stop : list Label :=
  [CallAsyncCall (ValObject 1) [ValNumber 2]; CallAsyncGo 0; CallAsyncGo 0;
   CallAsyncGo 0; StopCall; StopGo 0].

(** Two threads in [CallAsync] at once; the second to call is the first to
    add its task. *)
Definition two_calls : list Label :=
  [CallAsyncCall (ValObject 1) []; CallAsyncCall (ValObject 2) [ValNumber 7];
   CallAsyncGo 0; CallAsyncGo 1; CallAsyncGo 1; CallAsyncGo 0; CallAsyncGo 0;
   CallAsyncGo 1; LoopExec (Returned ValUndefined); LoopExec (Threw ValNull);
   CallAsyncGo 0].

(** * Properties *)

Section Registration.
Context `{Host}.

Lemma registerVMHandlers_unfold (vm : vm_VM) (lo : Loop) :
  registerVMHandlers vm lo =
    if bool_decide (fst (timers_Define vm lo) ≠ error_nil)
    then timers_Define vm lo
    else if bool_decide (fst (fetch_Define (snd (timers_Define vm lo)) lo) ≠ error_nil)
         then fetch_Define (snd (timers_Define vm lo)) lo
         else (error_nil, snd (fetch_Define (snd (timers_Define vm lo)) lo)).
Proof.
  unfold registerVMHandlers.
  destruct (timers_Define vm lo) as [e1 vm1]; simpl.
  destruct (bool_decide (e1 ≠ error_nil)); [reflexivity|].
  destruct (fetch_Define vm1 lo) as [e2 vm2]; reflexivity.
Qed.

End Registration.

(** C9.  [registerVMHandlers] runs the timer registration first and the fetch
    registration second, on the interpreter as the timers left it.  When the
    timers fail it returns their error, whatever the fetch registration is
    (it is not run); otherwise it returns what the fetch registration
    returns.  Its result is [nil] exactly when both registrations give
    [nil]. *)
Theorem registerVMHandlers_first_error `{Host} (vm : vm_VM) (lo : Loop) :
  let e1 := fst (timers_Define vm lo) in
  let vm1 := snd (timers_Define vm lo) in
  let e2 := fst (fetch_Define vm1 lo) in
  let vm2 := snd (fetch_Define vm1 lo) in
  (e1 ≠ error_nil ->
     ∀ f, @registerVMHandlers (with_fetch f) vm lo = (e1, vm1))
  ∧ (e1 = error_nil -> registerVMHandlers vm lo = (e2, vm2))
  ∧ (fst (registerVMHandlers vm lo) = error_nil <-> e1 = error_nil ∧ e2 = error_nil).
Proof.
  intros e1 vm1 e2 vm2. split; [|split; [|split]].
  - intros Hne f. rewrite (@registerVMHandlers_unfold (with_fetch f)). simpl.
    fold e1. rewrite bool_decide_eq_true_2 by exact Hne.
    subst e1 vm1. destruct (timers_Define vm lo); reflexivity.
  - intros He. rewrite registerVMHandlers_unfold. fold e1 vm1 e2 vm2.
    rewrite bool_decide_eq_false_2 by (intros Hc; apply Hc, He).
    destruct (decide (e2 = error_nil)) as [E|E].
    + rewrite bool_decide_eq_false_2 by (intros Hc; apply Hc, E). now rewrite E.
    + rewrite bool_decide_eq_true_2 by exact E.
      subst e2 vm2. destruct (fetch_Define vm1 lo); reflexivity.
  - rewrite registerVMHandlers_unfold. fold e1 vm1 e2 vm2.
    destruct (decide (e1 = error_nil)) as [E1|E1].
    + rewrite bool_decide_eq_false_2 by (intros Hc; apply Hc, E1).
      destruct (decide (e2 = error_nil)) as [E2|E2]; [done|].
      rewrite bool_decide_eq_true_2 by exact E2. intros Hf. exfalso. apply E2. exact Hf.
    + rewrite bool_decide_eq_true_2 by exact E1. intros Hf. exfalso. apply E1. exact Hf.
  - rewrite registerVMHandlers_unfold. fold e1 vm1 e2 vm2.
    intros [E1 E2].
    rewrite bool_decide_eq_false_2 by (intros Hc; apply Hc, E1).
    rewrite bool_decide_eq_false_2 by (intros Hc; apply Hc, E2). reflexivity.
Qed.

Example registerVMHandlers_registers_both :
  @registerVMHandlers plain_host [] loop_New
  = (error_nil,
     ["setTimeout"; "setInterval"; "clearTimeout"; "clearInterval"; "fetch"]).
Proof. reflexivity. Qed.

Example registerVMHandlers_stops_at_timers :
  @registerVMHandlers failing_host [] loop_New = (Some 1%nat, []).
Proof. reflexivity. Qed.

(** [NewCell] has no way to fail: whatever the registrations return, its
    result is a cell whose goroutine runs. *)
Lemma NewCell_always_returns_a_cell `{Host} (id : string) :
  cell_id (cell (NewCell id)) = id
  ∧ VM (cell (NewCell id)) = snd (registerVMHandlers vm_New loop_New)
  ∧ gpc (NewCell id) = GRun
  ∧ loopStopped (cell (NewCell id)) = false
  ∧ loopErr (cell (NewCell id)) = error_nil.
Proof. repeat split. Qed.

(** Case analysis on a step, and on which thread a lookup finds. *)
Ltac step_cases Hstep :=
  match type of Hstep with
  | step ?s ?l = Some _ =>
      destruct l; simpl in Hstep;
      unfold step_exec, step_loop, step_stop, step_wake, step_call, run_result,
        errors_New in Hstep;
      repeat match type of Hstep with
             | context [match ?x with _ => _ end] => destruct x eqn:?
             | context [if ?x then _ else _] => destruct x eqn:?
             end;
      simplify_eq; simpl in *
  end.

Ltac rewrite_gpc :=
  repeat match goal with E : gpc _ = _ |- _ => rewrite E in *; clear E end.

Ltac split_lookup Hlk :=
  first
    [ apply list_lookup_insert_Some in Hlk;
      destruct Hlk as [(? & ? & ?)|(? & Hlk)]; simplify_eq
    | apply lookup_snoc_Some in Hlk;
      destruct Hlk as [(? & Hlk)|(? & ?)]; simplify_eq
    | idtac ].

Ltac finish_thread :=
  simpl in *; destruct_and?;
  repeat match goal with E : ∃ _, _ |- _ => destruct E as (? & ?) end;
  destruct_and?; simplify_eq;
  repeat split;
  eauto using sublist_inserts_r;
  try congruence; try lia.

Section Lifecycle.
Context `{Host}.

Lemma loop_events_snoc (l : list Event) (e : Event) :
  loop_events (l ++ [e]) = loop_events l ++ (if loop_event e then [e] else []).
Proof.
  unfold loop_events. rewrite List.filter_app. simpl. now destruct (loop_event e).
Qed.

Lemma loop_inv_init (id : string) : loop_inv (NewCell id).
Proof. repeat split. Qed.

Lemma loop_inv_step (s s' : State) (l : Label) :
  loop_inv s -> step s l = Some s' -> loop_inv s'.
Proof.
  intros Hinv Hstep. unfold loop_inv in *.
  step_cases Hstep.
  all: repeat match goal with E : gpc _ = _ |- _ => rewrite E in *; clear E end.
  all: rewrite ?loop_events_snoc; simpl.
  all: try (rewrite ?app_nil_r; assumption).
  - destruct Hinv as (-> & ? & ?). auto.
  - destruct Hinv as (? & ? & ?).
    match goal with E : bool_decide _ = true |- _ => apply bool_decide_eq_true in E end.
    auto.
  - destruct Hinv as (? & ? & ?). exists err. unfold assignments, terminal.
    match goal with E : bool_decide _ = false |- _ => rewrite E end. auto.
  - destruct Hinv as (-> & Hne & ? & ?). exists err. unfold assignments, terminal.
    rewrite bool_decide_eq_true_2 by exact Hne. auto.
  - destruct Hinv as (err & -> & ? & ?). exists err. repeat split; auto.
  - destruct (gpc s); rewrite ?app_nil_r; try assumption;
      try (destruct Hinv as (err0 & Hinv); exists err0); intuition congruence.
  - destruct (gpc s); rewrite ?app_nil_r; try assumption;
      try (destruct Hinv as (err0 & Hinv); exists err0);
      intuition (try congruence; try lia).
Qed.

Lemma may_wait_select (s : State) (d : N) (tid : nat) (since : N) :
  may_wait s d = true -> stops s !! tid = Some (StopSelect since) ->
  clock s + d <= since + time_Second ∧ (loopStopped (cell s) = true -> d = 0).
Proof.
  unfold may_wait. rewrite forallb_forall. intros Hall Hlk.
  specialize (Hall (StopSelect since)). simpl in Hall.
  rewrite andb_true_iff, orb_true_iff, negb_true_iff in Hall.
  destruct Hall as [Hle Hd].
  { apply list_elem_of_In, list_elem_of_lookup. eauto. }
  split; [apply N.leb_le, Hle|].
  intros Hc. destruct Hd as [Hd|Hd]; [congruence|]. apply N.eqb_eq, Hd.
Qed.

Lemma sublist_snoc {A} (l k : list A) (x : A) :
  l `sublist_of` k -> l ++ [x] `sublist_of` k ++ [x].
Proof. intros. apply sublist_app; [assumption|reflexivity]. Qed.

Lemma time_Second_pos : 0 < time_Second.
Proof. reflexivity. Qed.

Lemma stop_inv_init (id : string) : stop_inv (NewCell id).
Proof. intros tid pc Hlk. simpl in Hlk. discriminate. Qed.

Lemma stop_inv_step (s s' : State) (l : Label) :
  loop_inv s -> stop_inv s -> step s l = Some s' -> stop_inv s'.
Proof.
  intros Hl Hs Hstep tid pc Hlk. unfold loop_inv in Hl.
  step_cases Hstep.
  all: split_lookup Hlk.
  all: try exact I.
  all: try (specialize (Hs _ _ Hlk); rewrite_gpc;
            destruct pc as [| |?|? ? [] ?]; finish_thread; fail).
  all: try match goal with
           | Ho : stops _ !! _ = Some _ |- _ => pose proof (Hs _ _ Ho) as Hold; simpl in Hold
           end.
  - (* close(loopStopped) *)
    specialize (Hs _ _ Hlk). rewrite_gpc.
    destruct pc as [| |?|? ? [] ?]; simpl in *; destruct_and?;
      repeat match goal with E : ∃ _, _ |- _ => destruct E as (? & ? & ?) end;
      try discriminate;
      repeat split; eauto using sublist_inserts_r.
    + intros ? [= <-]. lia.
    + intros ? [= <-]. lia.
  - split; [reflexivity|]. apply sublist_inserts_l. reflexivity.
  - destruct Hold as [Hc Hsub]. repeat split; auto; try lia.
    + apply (sublist_snoc _ _ _ Hsub).
    + intros t Ht. rewrite Ht in Hl. destruct Hl as (? & ? & ? & ? & ?). lia.
  - destruct Hold as (Hc & Hsub & ? & ? & Hd).
    destruct (gpc s) eqn:Hg;
      try (exfalso; repeat match goal with E : ∃ _, _ |- _ => destruct E end;
           intuition congruence).
    repeat split; auto; try lia.
    + apply (sublist_snoc _ _ _ Hsub).
    + eexists. split; [reflexivity|]. apply Hd. reflexivity.
  - destruct Hold as (Hc & Hsub & ? & ? & Hd).
    match goal with E : (_ <=? _) = true |- _ => apply N.leb_le in E end.
    repeat split; auto; try lia.
    + apply (sublist_snoc _ _ _ Hsub).
    + intros t Ht. specialize (Hd t Ht). pose proof time_Second_pos. lia.
  - (* time passes *)
    specialize (Hs _ _ Hlk).
    destruct pc as [| |since|? ? [] ?]; simpl in *; destruct_and?; repeat split; auto; try lia.
    + eapply may_wait_select; eauto.
    + intros t Ht.
      match goal with E : may_wait _ _ = true |- _ =>
        destruct (may_wait_select _ _ _ _ E Hlk) as [_ Hz] end.
      rewrite Ht in Hl. destruct Hl as (? & ? & ? & Hstopped & ?).
      rewrite (Hz Hstopped), N.add_0_r. auto.
Qed.

Lemma allocated_app (h k : Heap) (err : error) :
  allocated h err -> allocated (h ++ k) err.
Proof. destruct err; simpl; [rewrite length_app; lia|auto]. Qed.

Lemma Error_app (h k : Heap) (err : error) (text : string) :
  Error h err = Some text -> Error (h ++ k) err = Some text.
Proof. destruct err; simpl; [apply lookup_app_l_Some|discriminate]. Qed.

Lemma Error_fresh (h : Heap) (text : string) :
  Error (h ++ [text]) (Some (length h)) = Some text.
Proof. simpl. apply list_lookup_middle. reflexivity. Qed.

Lemma allocated_fresh (h : Heap) (text : string) :
  allocated (h ++ [text]) (Some (length h)).
Proof. simpl. rewrite length_app. simpl. lia. Qed.

Lemma not_allocated_fresh (h : Heap) : ¬ allocated h (Some (length h)).
Proof. simpl. lia. Qed.

Lemma heap_inv_init (id : string) : heap_inv (NewCell id).
Proof.
  split; [simpl; lia|]. split.
  - intros err [->|[->|[Hg|Hg]]]; simpl in *; try discriminate; auto.
  - intros tid since at_ r Hlk. simpl in Hlk. discriminate.
Qed.

Lemma heap_inv_frame (s s' : State) (k : Heap) :
  heap_inv s ->
  heap s' = heap s ++ k ->
  (∀ err, held_by_loop s' err ->
     held_by_loop s err ∨ err = error_nil
     ∨ (k ≠ [] ∧ err = Some (length (heap s)))) ->
  (∀ tid since at_ r,
     stops s' !! tid = Some (StopReturned since at_ TimerFired r) ->
     stops s !! tid = Some (StopReturned since at_ TimerFired r)
     ∨ (k = ["stopping the cell timed out"] ∧ r = Some (length (heap s))
        ∧ (∀ err, held_by_loop s' err -> held_by_loop s err)
        ∧ ∀ tid' since' at' r',
            tid' ≠ tid ->
            stops s' !! tid' = Some (StopReturned since' at' TimerFired r') ->
            stops s !! tid' = Some (StopReturned since' at' TimerFired r'))) ->
  heap_inv s'.
Proof.
  intros (Hpos & Hheld & Hst) Hheap Hloop Hstops.
  split; [rewrite Hheap, length_app; lia|]. split.
  - intros err Herr. rewrite Hheap.
    destruct (Hloop err Herr) as [Hold|[->|[Hk ->]]].
    + apply allocated_app; auto.
    + exact I.
    + simpl. rewrite length_app. destruct k; [done|]. simpl. lia.
  - intros tid since at_ r Hlk. rewrite Hheap.
    destruct (Hstops _ _ _ _ Hlk) as [Hold|(-> & -> & Hsame & Hothers)].
    + destruct (Hst _ _ _ _ Hold) as (Ha & He & Hn & Hd).
      split; [apply allocated_app; auto|].
      split; [apply Error_app; auto|]. split.
      * intros Hh. destruct (Hloop _ Hh) as [?|[->|[_ ->]]]; [auto|discriminate|].
        now apply not_allocated_fresh in Ha.
      * intros tid' since' at' r' Hne Hlk'.
        destruct (Hstops _ _ _ _ Hlk') as [Hold'|(_ & -> & _ & _)]; [eauto|].
        intros <-. now apply not_allocated_fresh in Ha.
    + split; [apply allocated_fresh|]. split; [apply Error_fresh|]. split.
      * intros Hh. apply Hsame, Hheld in Hh. now apply not_allocated_fresh in Hh.
      * intros tid' since' at' r' Hne Hlk' ->.
        apply Hothers in Hlk'; [|assumption].
        apply Hst in Hlk'. destruct Hlk' as [Ha _].
        now apply not_allocated_fresh in Ha.
Qed.

Lemma heap_inv_step (s s' : State) (l : Label) :
  heap_inv s -> step s l = Some s' -> heap_inv s'.
Proof.
  intros Hinv Hstep.
  step_cases Hstep.
  all: try (apply (heap_inv_frame s _ []); [assumption|simpl; now rewrite app_nil_r| |];
            [ unfold held_by_loop; simpl; intros ? ?; left; rewrite_gpc; intuition congruence
            | simpl; intros ? ? ? ? Hlk; split_lookup Hlk; try discriminate; left; assumption ];
            fail).
  - (* Run returns *)
    destruct r; simplify_eq.
    + apply (heap_inv_frame s _ []); [assumption|simpl; now rewrite app_nil_r| |].
      * unfold held_by_loop; simpl. intros ? [?|[?|[?|?]]]; simplify_eq; auto.
      * simpl. auto.
    + apply (heap_inv_frame s _ []); [assumption|simpl; now rewrite app_nil_r| |].
      * unfold held_by_loop; simpl. intros ? [?|[?|[?|?]]]; simplify_eq; auto.
      * simpl. auto.
    + apply (heap_inv_frame s _ [text]); [assumption|reflexivity| |].
      * unfold held_by_loop; simpl. intros ? [?|[?|[?|?]]]; simplify_eq; auto.
      * simpl. auto.
  - (* the timer case of the select *)
    apply (heap_inv_frame s _ ["stopping the cell timed out"]);
      [assumption|reflexivity|..].
    + unfold held_by_loop; simpl. intros ? ?. left. assumption.
    + simpl. intros tid' since' at' r' Hlk. split_lookup Hlk.
      * right. repeat split; auto.
        intros tid2 since2 at2 r2 Hne Hlk2. split_lookup Hlk2; try congruence; assumption.
      * left. assumption.
Qed.

(** *** The tasks of the loop *)

Lemma is_call_task_keeps (lo lo' : Loop) (i : nat) (fn0 : Value) (args0 : list Value) :
  keeps lo lo' -> is_call_task lo i fn0 args0 -> is_call_task lo' i fn0 args0.
Proof.
  intros Hk (t & Hlk & Htag & Hfn & Hargs & Hc).
  destruct (Hk _ _ Hlk) as (t' & ? & ? & ? & ? & ?).
  exists t'. repeat split; auto; congruence.
Qed.

Lemma keeps_Add (now : N) (t : Task) (lo : Loop) : keeps lo (snd (Add now t lo)).
Proof.
  intros i t0 Hlk. exists t0. simpl. split; [|auto].
  apply lookup_app_l_Some, Hlk.
Qed.

Lemma mark_ready_same (now : N) (t : Task) :
  task_id (mark_ready now t) = task_id t ∧ tag (mark_ready now t) = tag t
  ∧ fn (mark_ready now t) = fn t ∧ args (mark_ready now t) = args t
  ∧ completion (mark_ready now t) = completion t
  ∧ (state (mark_ready now t) = Done -> state t = Done).
Proof.
  unfold mark_ready. destruct (state t) eqn:E; simpl; repeat split; congruence.
Qed.

Lemma keeps_Ready_mark (now : N) (i : nat) (lo : Loop) : keeps lo (Ready_mark now i lo).
Proof.
  intros j t Hlk. unfold Ready_mark.
  destruct (tasks lo !! i) as [ti|] eqn:Hi; [|eauto 10].
  simpl. destruct (decide (i = j)) as [->|Hne].
  - rewrite list_lookup_insert_eq by (eapply lookup_lt_Some; eauto).
    simplify_eq. exists (mark_ready now t).
    destruct (mark_ready_same now t) as (? & ? & ? & ? & Hc & ?).
    rewrite Hc. auto 10.
  - rewrite list_lookup_insert_ne by assumption. eauto 10.
Qed.

Lemma deliver_is_Some (o : Outcome) (c : option (option Outcome)) :
  is_Some c -> deliver o c = Some (Some o).
Proof. intros [x ->]. reflexivity. Qed.

Lemma keeps_execute (now : N) (t : Task) (o : Outcome) (lo : Loop) :
  tasks lo !! task_id t = Some t -> keeps lo (execute now t o lo).
Proof.
  intros Ht j t0 Hlk.
  assert (∃ t', <[task_id t :=
            {| task_id := task_id t; tag := tag t; fn := fn t; args := args t;
               readiness := readiness t; readyAt := readyAt t; state := Done;
               completion := deliver o (completion t) |}]> (tasks lo) !! j = Some t'
          ∧ tag t' = tag t0 ∧ fn t' = fn t0 ∧ args t' = args t0
          ∧ (is_Some (completion t0) -> is_Some (completion t'))) as (t' & Hlk' & Hrest).
  { destruct (decide (task_id t = j)) as [<-|Hne].
    - rewrite list_lookup_insert_eq by (eapply lookup_lt_Some; eauto).
      simplify_eq. eexists. split; [reflexivity|]. simpl. repeat split.
      intros Hc. rewrite (deliver_is_Some _ _ Hc). eauto.
    - rewrite list_lookup_insert_ne by assumption. eauto 10. }
  exists t'. split; [|exact Hrest].
  unfold execute. destruct (readiness t); simpl; try exact Hlk'.
  apply lookup_app_l_Some, Hlk'.
Qed.

Lemma earliest_In (now : N) (q : list Task) (best : option Task) (t : Task) :
  earliest now q best = Some t -> In t q ∨ best = Some t.
Proof.
  revert best. induction q as [|a q IH]; simpl; intros best Hb; [auto|].
  apply IH in Hb. destruct Hb as [?|Hb]; [auto|].
  destruct (eligible now a); [|auto].
  destruct best as [b|]; [|simplify_eq; auto].
  destruct (readyAt a <? readyAt b); simplify_eq; auto.
Qed.

Lemma pick_lookup (now : N) (lo : Loop) (t : Task) :
  pick now lo = Some t -> ∃ i, tasks lo !! i = Some t.
Proof.
  intros Hp. apply earliest_In in Hp. destruct Hp as [Hin|?]; [|discriminate].
  apply list_elem_of_lookup, list_elem_of_In, Hin.
Qed.

Lemma In_snoc {A} (l : list A) (x y : A) : In x l -> In x (l ++ [y]).
Proof. intros. apply in_or_app. auto. Qed.

Lemma task_inv_init (id : string) : task_inv (NewCell id).
Proof. intros i t Hlk. simpl in Hlk. discriminate. Qed.

Lemma task_inv_log (s s' : State) :
  loop (cell s') = loop (cell s) -> (∀ e, In e (log s) -> In e (log s')) ->
  task_inv s -> task_inv s'.
Proof.
  intros Hlo Hlog Hinv i t Hlk. rewrite Hlo in Hlk.
  destruct (Hinv _ _ Hlk) as [? Hd]. split; [assumption|].
  intros Hs. destruct (Hd Hs) as [o ?]. eauto.
Qed.

Lemma tasks_execute (now : N) (t : Task) (o : Outcome) (lo : Loop) :
  ∃ again,
    tasks (execute now t o lo)
    = <[task_id t :=
          {| task_id := task_id t; tag := tag t; fn := fn t; args := args t;
             readiness := readiness t; readyAt := readyAt t; state := Done;
             completion := deliver o (completion t) |}]> (tasks lo) ++ again
    ∧ (again = []
       ∨ ∃ t', again = [t'] ∧ task_id t' = length (tasks lo) ∧ state t' = Pending).
Proof.
  unfold execute. destruct (readiness t); simpl.
  - exists []. rewrite app_nil_r. auto.
  - exists []. rewrite app_nil_r. auto.
  - eexists. split; [reflexivity|]. right. eexists. split; [reflexivity|].
    simpl. rewrite length_insert. auto.
Qed.

Lemma task_inv_step (s s' : State) (l : Label) :
  task_inv s -> step s l = Some s' -> task_inv s'.
Proof.
  intros Hinv Hstep.
  step_cases Hstep.
  all: try (apply (task_inv_log s); [reflexivity|simpl; auto using In_snoc|assumption]; fail).
  - (* the loop executes a task *)
    intros i t0 Hlk. simpl in *.
    destruct (tasks_execute (clock s) t o (loop (cell s))) as (again & Heq & Hagain).
    rewrite Heq in Hlk. apply lookup_app_Some in Hlk.
    destruct Hlk as [Hlk|[Hlen Hlk]].
    + apply list_lookup_insert_Some in Hlk.
      destruct Hlk as [(<- & <- & ?)|(? & Hlk)]; simpl.
      * split; [reflexivity|]. intros _. exists o. apply in_or_app. simpl. auto.
      * destruct (Hinv _ _ Hlk) as [? Hd]. split; [assumption|].
        intros Hs. destruct (Hd Hs) as [o' ?]. exists o'. auto using In_snoc.
    + destruct Hagain as [->|(t' & -> & Hid & Hst)]; [destruct (i - _)%nat; discriminate|].
      rewrite length_insert in Hlen, Hlk.
      apply list_lookup_singleton_Some in Hlk. destruct Hlk as [Hi <-].
      split; [lia|congruence].
  - (* Add *)
    unfold Add in *. simplify_eq.
    intros i t0 Hlk. simpl in Hlk. apply lookup_snoc_Some in Hlk.
    destruct Hlk as [(? & Hlk)|(-> & <-)]; simpl.
    + destruct (Hinv _ _ Hlk) as [? Hd]. split; [assumption|].
      intros Hs. destruct (Hd Hs) as [o' ?]. exists o'. auto using In_snoc.
    + split; [reflexivity|discriminate].
  - (* Ready *)
    intros j t0 Hlk. simpl in Hlk. unfold Ready_mark in Hlk.
    destruct (tasks (loop (cell s)) !! i) as [ti|] eqn:Hi; simpl in Hlk.
    + apply list_lookup_insert_Some in Hlk.
      destruct Hlk as [(<- & <- & ?)|(? & Hlk)]; simpl.
      * destruct (mark_ready_same (clock s) ti) as (Hid & _ & _ & _ & _ & Hst).
        destruct (Hinv _ _ Hi) as [? Hd]. split; [congruence|].
        intros Hs. destruct (Hd (Hst Hs)) as [o' ?]. exists o'. auto using In_snoc.
      * destruct (Hinv _ _ Hlk) as [? Hd]. split; [assumption|].
        intros Hs. destruct (Hd Hs) as [o' ?]. exists o'. auto using In_snoc.
    + destruct (Hinv _ _ Hlk) as [? Hd]. split; [assumption|].
      intros Hs. destruct (Hd Hs) as [o' ?]. exists o'. simpl. auto using In_snoc.
Qed.

Lemma keeps_refl (lo : Loop) : keeps lo lo.
Proof. intros i t Hlk. eauto 10. Qed.

Lemma call_ok_mono (s s' : State) (k : list Event) (tid : nat) (pc : CallPC) :
  log s' = log s ++ k -> keeps (loop (cell s)) (loop (cell s')) ->
  call_ok s tid pc -> call_ok s' tid pc.
Proof.
  intros Hlog Hk. unfold call_ok. rewrite Hlog.
  destruct pc; intros Hok; destruct_and?;
    repeat match goal with E : ∃ _, _ |- _ => destruct E as [? ?] end;
    repeat split; eauto using sublist_inserts_r, is_call_task_keeps.
Qed.

Lemma call_inv_init (id : string) : call_inv (NewCell id).
Proof. intros tid pc Hlk. simpl in Hlk. discriminate. Qed.

Lemma call_inv_step (s s' : State) (l : Label) :
  task_inv s -> call_inv s -> step s l = Some s' -> call_inv s'.
Proof.
  intros Ht Hinv Hstep tid pc Hlk.
  step_cases Hstep.
  all: split_lookup Hlk.
  all: try exact I.
  all: try (eapply (call_ok_mono s);
            [ simpl; first [reflexivity | symmetry; apply app_nil_r]
            | simpl; apply keeps_refl
            | apply Hinv, Hlk ]; fail).
  all: try match goal with
           | Ho : calls _ !! _ = Some _ |- _ =>
               pose proof (Hinv _ _ Ho) as Hold; simpl in Hold
           end.
  - (* the loop executes a task *)
    eapply (call_ok_mono s); [reflexivity| |apply Hinv, Hlk].
    simpl. apply keeps_execute.
    destruct (pick_lookup _ _ _ Heqo0) as [i Hi].
    destruct (Ht _ _ Hi) as [-> _]. exact Hi.
  - split; [reflexivity|]. simpl. apply sublist_inserts_l. reflexivity.
  - unfold Add in *. simplify_eq. destruct Hold as [-> Hsub]. split.
    + apply (sublist_snoc _ _ _ Hsub).
    + eexists. split; [apply list_lookup_middle; reflexivity|].
      simpl. eauto.
  - unfold Add in *. simplify_eq.
    eapply (call_ok_mono s); [reflexivity| |apply Hinv, Hlk].
    apply (keeps_Add (clock s) task).
  - destruct Hold as [Hsub Htask]. split.
    + apply (sublist_snoc _ _ _ Hsub).
    + eapply is_call_task_keeps; [apply keeps_Ready_mark|exact Htask].
  - eapply (call_ok_mono s); [reflexivity| |apply Hinv, Hlk].
    apply keeps_Ready_mark.
  - destruct Hold as [Hsub Htask]. split; [apply (sublist_snoc _ _ _ Hsub)|].
    split; [|exact Htask].
    unfold finished in *.
    destruct (tasks (loop (cell s)) !! i) as [t|] eqn:Hi; [|discriminate].
    destruct (state t) eqn:Hst; try discriminate.
    destruct (Ht _ _ Hi) as [_ Hd]. destruct (Hd Hst) as [o Ho].
    exists o. apply (sublist_snoc [EvExecuted i o]).
    apply singleton_sublist_l, list_elem_of_In, Ho.
Qed.

(** *** Reachable states satisfy the invariants *)

Lemma invariant_init (id : string) : invariant (NewCell id).
Proof.
  split; [apply loop_inv_init|]. split; [apply stop_inv_init|].
  split; [apply heap_inv_init|]. split; [apply task_inv_init|apply call_inv_init].
Qed.

Lemma invariant_step (s s' : State) (l : Label) :
  invariant s -> step s l = Some s' -> invariant s'.
Proof.
  intros (Hl & Hs & Hh & Ht & Hc) Hstep.
  split; [eapply loop_inv_step; eauto|].
  split; [eapply stop_inv_step; eauto|].
  split; [eapply heap_inv_step; eauto|].
  split; [eapply task_inv_step; eauto|eapply call_inv_step; eauto].
Qed.

Lemma invariant_run (ls : list Label) (s s' : State) :
  invariant s -> run s ls = Some s' -> invariant s'.
Proof.
  revert s. induction ls as [|l ls IH]; simpl; intros s Hinv Hrun.
  - now simplify_eq.
  - destruct (step s l) as [s1|] eqn:Hstep; [|discriminate].
    eauto using invariant_step.
Qed.

Lemma reachable_invariant (s : State) : reachable s -> invariant s.
Proof. intros (id & ls & Hrun). eapply invariant_run; eauto using invariant_init. Qed.

Lemma run_app (ls1 ls2 : list Label) (s s1 s2 : State) :
  run s ls1 = Some s1 -> run s1 ls2 = Some s2 -> run s (ls1 ++ ls2) = Some s2.
Proof.
  revert s. induction ls1 as [|l ls1 IH]; simpl; intros s H1 H2.
  - now simplify_eq.
  - destruct (step s l); [eauto|discriminate].
Qed.

Lemma reachable_run (ls : list Label) (s s' : State) :
  reachable s -> run s ls = Some s' -> reachable s'.
Proof. intros (id & ls0 & H0) Hrun. exists id, (ls0 ++ ls). eapply run_app; eauto. Qed.

Lemma reachable_step (l : Label) (s s' : State) :
  reachable s -> step s l = Some s' -> reachable s'.
Proof. intros Hr Hstep. apply (reachable_run [l] s); [assumption|]. simpl. now rewrite Hstep. Qed.


Lemma may_wait_exit_ready (s : State) (d : N) (tid : nat) (since : N) :
  stops s !! tid = Some (StopSelect since) ->
  loopStopped (cell s) = true -> 0 < d -> may_wait s d = false.
Proof.
  intros Hlk Hst Hd. destruct (may_wait s d) eqn:E; [|reflexivity].
  destruct (may_wait_select _ _ _ _ E Hlk) as [_ Hz]. specialize (Hz Hst). lia.
Qed.

(** A [select] that finds the channel closed takes the exit case, at once. *)
Lemma select_exit_ready (s : State) (tid : nat) (since : N) :
  stops s !! tid = Some (StopSelect since) ->
  loopStopped (cell s) = true ->
  (∃ s', step s (StopWake tid ExitSignal) = Some s'
         ∧ stops s' !! tid
           = Some (StopReturned since (clock s) ExitSignal (loopErr (cell s))))
  ∧ ∀ d, 0 < d -> step s (Advance d) = None.
Proof.
  intros Hlk Hst. split.
  - unfold step, step_wake. rewrite Hlk, Hst. eexists. split; [reflexivity|].
    simpl. apply list_lookup_insert_eq. eapply lookup_lt_Some; eauto.
  - intros d Hd. simpl. now rewrite (may_wait_exit_ready _ _ _ _ Hlk Hst Hd).
Qed.

(** A thread that returned from [Stop] stays returned. *)
Lemma returned_step (s s' : State) (l : Label) (tid : nat) (since at_ : N)
    (b : Branch) (r : error) :
  stops s !! tid = Some (StopReturned since at_ b r) ->
  step s l = Some s' ->
  stops s' !! tid = Some (StopReturned since at_ b r).
Proof.
  intros Hlk Hstep. step_cases Hstep; try assumption.
  - apply lookup_app_l_Some; assumption.
  - rewrite list_lookup_insert_ne; [assumption|congruence].
  - rewrite list_lookup_insert_ne; [assumption|congruence].
  - rewrite list_lookup_insert_ne; [assumption|congruence].
  - rewrite list_lookup_insert_ne; [assumption|congruence].
Qed.

Lemma returned_run (ls : list Label) (s s' : State) (tid : nat) (since at_ : N)
    (b : Branch) (r : error) :
  stops s !! tid = Some (StopReturned since at_ b r) ->
  run s ls = Some s' ->
  stops s' !! tid = Some (StopReturned since at_ b r).
Proof.
  revert s. induction ls as [|l ls IH]; simpl; intros s Hlk Hrun.
  - now simplify_eq.
  - destruct (step s l) as [s1|] eqn:Hstep; [|discriminate].
    eauto using returned_step.
Qed.

End Lifecycle.



Section Terminal.
Context `{Host}.

Lemma terminal_nil (err : error) :
  terminal err = error_nil <-> err = context_Canceled ∨ err = error_nil.
Proof.
  unfold terminal. case_bool_decide as Hd.
  - split; [auto|]. intros [?|?]; [contradiction|assumption].
  - split; [|reflexivity]. intros _. left.
    destruct (decide (err = context_Canceled)); [assumption|contradiction].
Qed.

Lemma In_loop_events (e : Event) (l : list Event) :
  In e l -> loop_event e = true -> In e (loop_events l).
Proof. intros. apply filter_In. auto. Qed.

Lemma In_assignments (e : Event) (err : error) :
  In e (assignments err) -> e = EvLoopErrAssigned err.
Proof.
  unfold assignments. case_bool_decide; simpl; intros Hin.
  - destruct Hin as [?|[]]. congruence.
  - destruct Hin.
Qed.

(** What the log says once the goroutine has finished. *)
Lemma done_log (s : State) (t : N) :
  loop_inv s -> gpc s = GDone t ->
  ∃ err, loopErr (cell s) = terminal err ∧ loopStopped (cell s) = true
         ∧ In (EvRunReturned err) (log s)
         ∧ ∀ err', In (EvRunReturned err') (log s) -> err' = err.
Proof.
  unfold loop_inv. intros Hl Hg. rewrite Hg in Hl.
  destruct Hl as (err & Hev & He & Hst & _). exists err.
  split; [assumption|]. split; [assumption|]. split.
  - assert (In (EvRunReturned err) (loop_events (log s))) as Hin
      by (rewrite Hev; simpl; auto).
    apply filter_In in Hin. tauto.
  - intros err' Hin. apply In_loop_events in Hin; [|reflexivity].
    rewrite Hev in Hin. simpl in Hin. destruct Hin as [Heq|Hin]; [congruence|].
    apply in_app_or in Hin. destruct Hin as [Hin|[Hin|[]]]; [|discriminate].
    apply In_assignments in Hin. discriminate.
Qed.

End Terminal.

(** Whatever [Run] returns: once the goroutine has closed [loopStopped],
    [loopErr] is the result of [Run] unless that was [context.Canceled].
    When the close came less than a second after a [Stop] began to wait,
    that [Stop], while it is in its [select], can only take the exit-signal
    case and takes it without waiting, and when it has returned it did so
    through that case, with [loopErr]. *)
Lemma Stop_returns_terminal_error `{Host}
    (s : State) (tid : nat) (pc : StopPC) (t : N) :
  reachable s ->
  stops s !! tid = Some pc ->
  gpc s = GDone t ->
  (∃ err, In (EvRunReturned err) (log s)
          ∧ (∀ err', In (EvRunReturned err') (log s) -> err' = err)
          ∧ (err ≠ context_Canceled -> loopErr (cell s) = err)
          ∧ (loopErr (cell s) = error_nil
             <-> err = context_Canceled ∨ err = error_nil))
  ∧ match pc with
    | StopSelect since =>
        t < since + time_Second ->
        (∃ s', step s (StopWake tid ExitSignal) = Some s'
               ∧ stops s' !! tid
                 = Some (StopReturned since (clock s) ExitSignal (loopErr (cell s))))
        ∧ step s (StopWake tid TimerFired) = None
        ∧ ∀ d, 0 < d -> step s (Advance d) = None
    | StopReturned since at_ b r =>
        t < since + time_Second -> b = ExitSignal ∧ r = loopErr (cell s)
    | _ => True
    end.
Proof.
  intros Hr Hlk Hg.
  destruct (reachable_invariant s Hr) as (Hl & Hs & _).
  pose proof (Hs _ _ Hlk) as Hpc. simpl in Hpc.
  destruct (done_log s t Hl Hg) as (err & He & Hst & Hin & Huniq).
  split.
  - exists err. split; [assumption|]. split; [assumption|]. rewrite He. split.
    + intros Hne. unfold terminal. now rewrite bool_decide_eq_true_2.
    + apply terminal_nil.
  - destruct pc as [| |since|since at_ [] r]; try exact I.
    + intros Ht. destruct Hpc as (_ & _ & Hsince & _ & Hmax).
      specialize (Hmax t Hg).
      destruct (select_exit_ready s tid since Hlk Hst) as [Hexit Hnow].
      split; [exact Hexit|]. split; [|exact Hnow].
      unfold step, step_wake. rewrite Hlk. pose proof time_Second_pos.
      rewrite (proj2 (N.leb_gt _ _)) by lia. reflexivity.
    + intros _. destruct Hpc as (_ & _ & -> & _). auto.
    + intros Ht. destruct Hpc as (_ & _ & -> & _ & Hd). specialize (Hd t Hg). lia.
Qed.

Section AsSpecified.
Context `{Host}.

Lemma no_nil_result_step (s s' : State) (l : Label) :
  (∀ err, In (EvRunReturned err) (log s) -> err ≠ error_nil) ->
  as_specified l = true -> step s l = Some s' ->
  ∀ err, In (EvRunReturned err) (log s') -> err ≠ error_nil.
Proof.
  intros Hq Hl Hstep err Hin.
  step_cases Hstep;
    try (apply in_app_or in Hin; destruct Hin as [Hin|[Hin|[]]]; [|try discriminate]);
    try (now apply Hq).
  destruct r; simpl in *; simplify_eq; try discriminate.
Qed.

Lemma no_nil_result_run (ls : list Label) (s s' : State) :
  (∀ err, In (EvRunReturned err) (log s) -> err ≠ error_nil) ->
  forallb as_specified ls = true -> run s ls = Some s' ->
  ∀ err, In (EvRunReturned err) (log s') -> err ≠ error_nil.
Proof.
  revert s. induction ls as [|l ls IH]; simpl; intros s Hq Hall Hrun.
  - now simplify_eq.
  - apply andb_true_iff in Hall. destruct Hall as [Hl Hall].
    destruct (step s l) as [s1|] eqn:Hstep; [|discriminate].
    eapply (IH s1); eauto using no_nil_result_step.
Qed.

Lemma reachable_as_specified_reachable (s : State) :
  reachable_as_specified s ->
  reachable s ∧ ∀ err, In (EvRunReturned err) (log s) -> err ≠ error_nil.
Proof.
  intros (id & ls & Hall & Hrun). split; [exists id, ls; assumption|].
  eapply (no_nil_result_run ls (NewCell id)); eauto.
Qed.

End AsSpecified.

(** C4.  With [Run] returning as the spec says: once the goroutine has
    closed [loopStopped], [loopErr] is the terminal error, the error of the
    fault when [Run] returned one, and [nil] exactly when [Run] returned the
    cancellation result [context.Canceled].  When the close came less than a
    second after a [Stop] began to wait, that [Stop], while it is in its
    [select], can only take the exit-signal case and takes it without
    waiting, and when it has returned it did so through that case, with
    [loopErr]. *)
Theorem Stop_returns_nil_iff_cancelled `{Host}
    (s : State) (tid : nat) (pc : StopPC) (t : N) :
  reachable_as_specified s ->
  stops s !! tid = Some pc ->
  gpc s = GDone t ->
  (∃ err, In (EvRunReturned err) (log s)
          ∧ (∀ err', In (EvRunReturned err') (log s) -> err' = err)
          ∧ (err ≠ context_Canceled -> loopErr (cell s) = err ∧ err ≠ error_nil)
          ∧ (loopErr (cell s) = error_nil <-> err = context_Canceled))
  ∧ match pc with
    | StopSelect since =>
        t < since + time_Second ->
        (∃ s', step s (StopWake tid ExitSignal) = Some s'
               ∧ stops s' !! tid
                 = Some (StopReturned since (clock s) ExitSignal (loopErr (cell s))))
        ∧ step s (StopWake tid TimerFired) = None
        ∧ ∀ d, 0 < d -> step s (Advance d) = None
    | StopReturned since at_ b r =>
        t < since + time_Second -> b = ExitSignal ∧ r = loopErr (cell s)
    | _ => True
    end.
Proof.
  intros Hspec Hlk Hg.
  destruct (reachable_as_specified_reachable s Hspec) as [Hr Hnonnil].
  destruct (Stop_returns_terminal_error s tid pc t Hr Hlk Hg)
    as [(err & Hin & Huniq & Herr & Hnil) Hpc].
  split; [|exact Hpc].
  exists err. split; [assumption|]. split; [assumption|].
  pose proof (Hnonnil err Hin) as Hne. split.
  - intros Hc. split; [auto|assumption].
  - split.
    + intros He. apply Hnil in He. destruct He; [assumption|contradiction].
    + intros ->. apply Hnil. auto.
Qed.

Lemma Stop_returns_nil_iff_cancelled_witness :
  reachable_as_specified (@after plain_host stop_cancelled)
  ∧ stops (@after plain_host stop_cancelled) !! 0%nat
    = Some (StopReturned 0 0 ExitSignal error_nil)
  ∧ gpc (@after plain_host stop_cancelled) = GDone 0
  ∧ (0 < 0 + time_Second ->
     ExitSignal = ExitSignal
     ∧ error_nil = loopErr (cell (@after plain_host stop_cancelled))).
Proof.
  assert (reachable_as_specified (@after plain_host stop_cancelled)) as Hr.
  { exists "cell", stop_cancelled. split; vm_compute; reflexivity. }
  assert (stops (@after plain_host stop_cancelled) !! 0%nat
          = Some (StopReturned 0 0 ExitSignal error_nil)) as Hlk.
  { vm_compute. reflexivity. }
  assert (gpc (@after plain_host stop_cancelled) = GDone 0) as Hg.
  { vm_compute. reflexivity. }
  split; [exact Hr|]. split; [exact Hlk|]. split; [exact Hg|].
  exact (proj2 (Stop_returns_nil_iff_cancelled _ _ _ _ Hr Hlk Hg)).
Defined.

(** C5.  [Stop] can be called again in any state.  Tripping a controller
    that is tripped changes nothing.  Every call, the first or a later one,
    returns at most a second after it began to wait; a call that is in its
    [select] when the exit signal is there takes the exit-signal case
    without waiting; a call that began to wait when the exit signal was
    already there returned at once, through the exit-signal case, with the
    terminal error, and all calls that returned through that case returned
    the same error. *)
Theorem Stop_again_is_safe `{Host} (s : State) :
  reachable s ->
  (∃ s', step s StopCall = Some s' ∧ stops s' !! length (stops s) = Some StopEntered)
  ∧ (∀ c : Context, trip (trip c) = trip c)
  ∧ (ctx_done (cancel (cell s)) = true ->
     set_cancel (trip (cancel (cell s))) (cell s) = cell s)
  ∧ (∀ tid since,
       stops s !! tid = Some (StopSelect since) ->
       loopStopped (cell s) = true ->
       (∃ s', step s (StopWake tid ExitSignal) = Some s'
              ∧ stops s' !! tid
                = Some (StopReturned since (clock s) ExitSignal (loopErr (cell s))))
       ∧ ∀ d, 0 < d -> step s (Advance d) = None)
  ∧ ∀ tid since at_ b r,
      stops s !! tid = Some (StopReturned since at_ b r) ->
      at_ <= since + time_Second
      ∧ (∀ t, gpc s = GDone t -> t <= since ->
           at_ = since ∧ b = ExitSignal ∧ r = loopErr (cell s))
      ∧ (∀ tid' since' at' r',
           b = ExitSignal ->
           stops s !! tid' = Some (StopReturned since' at' ExitSignal r') ->
           r' = r).
Proof.
  intros Hr. destruct (reachable_invariant s Hr) as (Hl & Hs & _).
  split; [|split; [|split; [|split]]].
  - eexists. split; [reflexivity|]. simpl. apply list_lookup_middle. reflexivity.
  - reflexivity.
  - intros Hc. destruct (cell s) as [vm i [d] lo st e]. simpl in *. now subst.
  - intros tid since Hlk Hst. apply select_exit_ready; assumption.
  - intros tid since at_ b r Hlk. pose proof (Hs _ _ Hlk) as Hpc. simpl in Hpc.
    pose proof time_Second_pos.
    destruct b.
    + destruct Hpc as (_ & _ & -> & _ & Hle & t & Hg & ->).
      split; [assumption|]. split.
      * intros t' Hg' Ht. rewrite Hg in Hg'. simplify_eq. split; [lia|auto].
      * intros tid' since' at' r' _ Hlk'. pose proof (Hs _ _ Hlk') as Hpc'.
        simpl in Hpc'. tauto.
    + destruct Hpc as (_ & _ & -> & _ & Hd).
      split; [lia|]. split; [|discriminate].
      intros t Hg Ht. specialize (Hd t Hg). lia.
Qed.

Lemma Stop_again_is_safe_witness :
  reachable (@after plain_host stop_twice)
  ∧ stops (@after plain_host stop_twice) !! 1%nat
    = Some (StopReturned time_Second time_Second ExitSignal (Some 2%nat))
  ∧ time_Second <= time_Second + time_Second
  ∧ (time_Second = time_Second ∧ ExitSignal = ExitSignal
     ∧ Some 2%nat = loopErr (cell (@after plain_host stop_twice))).
Proof.
  assert (reachable (@after plain_host stop_twice)) as Hr.
  { exists "cell", stop_twice. vm_compute. reflexivity. }
  assert (stops (@after plain_host stop_twice) !! 1%nat
          = Some (StopReturned time_Second time_Second ExitSignal (Some 2%nat))) as Hlk.
  { vm_compute. reflexivity. }
  split; [exact Hr|]. split; [exact Hlk|].
  destruct (Stop_again_is_safe _ Hr) as (_ & _ & _ & _ & Hret).
  destruct (Hret _ _ _ _ _ Hlk) as (Hle & Hprompt & _).
  split; [exact Hle|].
  apply (Hprompt time_Second); [vm_compute; reflexivity|reflexivity].
Defined.

Section AssignedOnce.
Context `{Host}.

Lemma loop_events_app (l1 l2 : list Event) :
  loop_events (l1 ++ l2) = loop_events l1 ++ loop_events l2.
Proof. apply List.filter_app. Qed.

(** Where an assignment can sit among the goroutine's events. *)
Lemma assignment_position (l1 l2 : list Event) (err e : error) (tail : list Event) :
  tail = [] ∨ tail = [EvLoopStoppedClosed] ->
  l1 ++ EvLoopErrAssigned err :: l2 = EvRunReturned e :: assignments e ++ tail ->
  l1 = [EvRunReturned e] ∧ l2 = tail.
Proof.
  intros Htail Heq.
  destruct l1 as [|x l1]; simpl in Heq; [discriminate|].
  injection Heq as -> Heq.
  unfold assignments in Heq. case_bool_decide; simpl in Heq.
  - destruct l1 as [|y l1]; simpl in Heq; [now simplify_eq|].
    injection Heq as -> Heq.
    destruct Htail as [->| ->]; destruct l1 as [|z [|? ?]]; simpl in Heq; discriminate.
  - destruct Htail as [->| ->]; destruct l1 as [|z [|? ?]]; simpl in Heq; discriminate.
Qed.

Lemma assignment_in_log (s : State) (l1 l2 : list Event) (err : error) :
  loop_inv s -> log s = l1 ++ EvLoopErrAssigned err :: l2 ->
  ∃ e tail, (tail = [] ∨ tail = [EvLoopStoppedClosed])
            ∧ loop_events l1 = [EvRunReturned e] ∧ loop_events l2 = tail.
Proof.
  unfold loop_inv. intros Hl Hlog.
  assert (loop_events (log s)
          = loop_events l1 ++ EvLoopErrAssigned err :: loop_events l2) as Hev.
  { rewrite Hlog, loop_events_app. reflexivity. }
  destruct (gpc s).
  - destruct Hl as [Hl _]. rewrite Hl in Hev. destruct (loop_events l1); discriminate.
  - destruct Hl as [Hl _]. rewrite Hl in Hev.
    destruct (loop_events l1) as [|? [|? ?]]; discriminate.
  - destruct Hl as [Hl _]. rewrite Hl in Hev.
    destruct (loop_events l1) as [|? [|? ?]]; discriminate.
  - destruct Hl as (e & Hl & _). rewrite Hl in Hev. exists e, [].
    split; [auto|]. apply (assignment_position _ _ err e); [auto|].
    rewrite app_nil_r. auto.
  - destruct Hl as (e & Hl & _). rewrite Hl in Hev. exists e, [EvLoopStoppedClosed].
    split; [auto|]. apply (assignment_position _ _ err e); auto.
Qed.

Lemma done_step (s s' : State) (l : Label) (t : N) :
  gpc s = GDone t -> step s l = Some s' ->
  gpc s' = GDone t ∧ loopErr (cell s') = loopErr (cell s).
Proof.
  intros Hg Hstep. step_cases Hstep; rewrite ?Hg in *; simplify_eq; auto.
Qed.

Lemma done_run (ls : list Label) (s s' : State) (t : N) :
  gpc s = GDone t -> run s ls = Some s' ->
  gpc s' = GDone t ∧ loopErr (cell s') = loopErr (cell s).
Proof.
  revert s. induction ls as [|l ls IH]; simpl; intros s Hg Hrun.
  - now simplify_eq.
  - destruct (step s l) as [s1|] eqn:Hstep; [|discriminate].
    destruct (done_step _ _ _ _ Hg Hstep) as [Hg1 He1].
    destruct (IH _ Hg1 Hrun) as [? ?]. split; [assumption|congruence].
Qed.

End AssignedOnce.

(** C8.  In the log of a reachable state an assignment to [loopErr] has no
    other assignment before or after it and no close of [loopStopped] before
    it.  A step that changes [loopErr] is a step of the goroutine, and
    leaves the channel open.  What a [Stop] returned through the exit-signal
    case is the value of [loopErr] in every later state. *)
Theorem loopErr_assigned_once_before_close `{Host} (s : State) :
  reachable s ->
  (∀ l1 l2 err,
     log s = l1 ++ EvLoopErrAssigned err :: l2 ->
     ¬ In EvLoopStoppedClosed l1
     ∧ ∀ err', ¬ In (EvLoopErrAssigned err') (l1 ++ l2))
  ∧ (∀ l s',
       step s l = Some s' -> loopErr (cell s') ≠ loopErr (cell s) ->
       l = LoopGo ∧ loopStopped (cell s') = false)
  ∧ (∀ tid since at_ r,
       stops s !! tid = Some (StopReturned since at_ ExitSignal r) ->
       ∀ ls s', run s ls = Some s' -> loopErr (cell s') = r).
Proof.
  intros Hr. destruct (reachable_invariant s Hr) as (Hl & Hs & _).
  split; [|split].
  - intros l1 l2 err Hlog.
    destruct (assignment_in_log s l1 l2 err Hl Hlog) as (e & tail & Htail & H1 & H2).
    split.
    + intros Hin. apply In_loop_events in Hin; [|reflexivity].
      rewrite H1 in Hin. destruct Hin as [?|[]]. discriminate.
    + intros err' Hin. apply in_app_or in Hin. destruct Hin as [Hin|Hin];
        (apply In_loop_events in Hin; [|reflexivity]).
      * rewrite H1 in Hin. destruct Hin as [?|[]]. discriminate.
      * rewrite H2 in Hin. destruct Htail as [->| ->]; simpl in Hin;
          [destruct Hin|destruct Hin as [?|[]]; discriminate].
  - intros l s' Hstep Hne. unfold loop_inv in Hl.
    step_cases Hstep; try (exfalso; apply Hne; reflexivity).
    rewrite_gpc. split; [reflexivity|tauto].
  - intros tid since at_ r Hlk ls s' Hrun.
    pose proof (Hs _ _ Hlk) as Hpc. simpl in Hpc.
    destruct Hpc as (_ & _ & -> & _ & _ & t & Hg & _).
    eapply done_run; eauto.
Qed.

Lemma loopErr_assigned_once_witness :
  reachable (@after plain_host stop_twice)
  ∧ ¬ In EvLoopStoppedClosed
        [EvCancel 0; EvSelect 0; EvStopReturned 0 TimerFired (Some 1%nat);
         EvRunReturned (Some 2%nat)]
  ∧ loopErr (cell (@after plain_host stop_twice)) = Some 2%nat.
Proof.
  assert (reachable (@after plain_host stop_twice)) as Hr.
  { exists "cell", stop_twice. vm_compute. reflexivity. }
  split; [exact Hr|].
  destruct (loopErr_assigned_once_before_close _ Hr) as (Hlog & _ & Hfinal).
  split.
  - eapply (Hlog _ _ (Some 2%nat)). vm_compute. reflexivity.
  - apply (Hfinal 1%nat time_Second time_Second (Some 2%nat)) with (ls := []);
      vm_compute; reflexivity.
Defined.

(** C10.  What a [Stop] returned through the timer case is an error object
    with the text of the timeout: it is not [nil], it is not the loop's
    terminal error, now or in any later state, it is not
    [context.Canceled], and no other call of [Stop] returned it, through
    either case. *)
Theorem Stop_timeout_error_is_distinct `{Host}
    (s : State) (tid : nat) (since at_ : N) (r : error) :
  reachable s ->
  stops s !! tid = Some (StopReturned since at_ TimerFired r) ->
  r ≠ error_nil
  ∧ Error (heap s) r = Some "stopping the cell timed out"
  ∧ r ≠ context_Canceled
  ∧ (∀ ls s', run s ls = Some s' -> r ≠ loopErr (cell s'))
  ∧ ∀ tid' since' at' b' r',
      tid' ≠ tid ->
      stops s !! tid' = Some (StopReturned since' at' b' r') ->
      r' ≠ r.
Proof.
  intros Hr Hlk.
  destruct (reachable_invariant s Hr) as (_ & Hs & (_ & _ & Hst) & _).
  destruct (Hst _ _ _ _ Hlk) as (_ & He & Hheld & Hothers).
  split; [intros ->; discriminate|]. split; [assumption|].
  split; [intros ->; apply Hheld; unfold held_by_loop; auto|]. split.
  - intros ls s' Hrun Heq.
    pose proof (reachable_run _ _ _ Hr Hrun) as Hr'.
    destruct (reachable_invariant s' Hr') as (_ & _ & (_ & _ & Hst') & _).
    destruct (Hst' _ _ _ _ (returned_run _ _ _ _ _ _ _ _ Hlk Hrun)) as (_ & _ & Hheld' & _).
    apply Hheld'. unfold held_by_loop. auto.
  - intros tid' since' at' b' r' Hne Hlk'. destruct b'.
    + pose proof (Hs _ _ Hlk') as Hpc. simpl in Hpc.
      destruct Hpc as (_ & _ & -> & _). intros Heq. apply Hheld.
      unfold held_by_loop. auto.
    + eapply Hothers; eauto.
Qed.

Lemma Stop_timeout_error_is_distinct_witness :
  reachable (@after plain_host stop_twice)
  ∧ stops (@after plain_host stop_twice) !! 0%nat
    = Some (StopReturned 0 time_Second TimerFired (Some 1%nat))
  ∧ Some 1%nat ≠ error_nil
  ∧ Some 1%nat ≠ loopErr (cell (@after plain_host stop_twice))
  ∧ Some 2%nat ≠ Some 1%nat.
Proof.
  assert (reachable (@after plain_host stop_twice)) as Hr.
  { exists "cell", stop_twice. vm_compute. reflexivity. }
  assert (stops (@after plain_host stop_twice) !! 0%nat
          = Some (StopReturned 0 time_Second TimerFired (Some 1%nat))) as Hlk.
  { vm_compute. reflexivity. }
  split; [exact Hr|]. split; [exact Hlk|].
  destruct (Stop_timeout_error_is_distinct _ _ _ _ _ Hr Hlk)
    as (Hnil & _ & _ & Hterm & Hothers).
  split; [exact Hnil|]. split.
  - apply (Hterm []). reflexivity.
  - apply (Hothers 1%nat time_Second time_Second ExitSignal); [discriminate|].
    vm_compute. reflexivity.
Defined.

(** C7.  A thread in [CallAsync] builds the Call task of its [fn] and
    [args], adds it to the loop, marks it ready, and then waits: its next
    step exists exactly when the loop has finished the task.  When it has
    returned, the log has its four statements in that order, and the
    execution of its task by the loop before its return. *)
Theorem CallAsync_waits_for_its_task `{Host} (s : State) (tid : nat) (pc : CallPC) :
  reachable s -> calls s !! tid = Some pc ->
  match pc with
  | CallEntered fn0 args0 =>
      ∃ s', step s (CallAsyncGo tid) = Some s'
            ∧ calls s' !! tid = Some (CallHasTask fn0 args0 (NewCallTask fn0 args0))
  | CallHasTask fn0 args0 task =>
      task = NewCallTask fn0 args0
      ∧ ∃ s' i, step s (CallAsyncGo tid) = Some s'
                ∧ calls s' !! tid = Some (CallAdded fn0 args0 i)
                ∧ is_call_task (loop (cell s')) i fn0 args0
  | CallAdded fn0 args0 i =>
      is_call_task (loop (cell s)) i fn0 args0
      ∧ ∃ s' t, step s (CallAsyncGo tid) = Some s'
                ∧ calls s' !! tid = Some (CallBlocked fn0 args0 i)
                ∧ tasks (loop (cell s')) !! i = Some t ∧ state t ≠ Pending
  | CallBlocked fn0 args0 i =>
      [EvNewCallTask tid fn0 args0; EvAdd tid i; EvReady tid i] `sublist_of` log s
      ∧ is_call_task (loop (cell s)) i fn0 args0
      ∧ (finished i (loop (cell s)) = false -> step s (CallAsyncGo tid) = None)
      ∧ (finished i (loop (cell s)) = true ->
         ∃ s', step s (CallAsyncGo tid) = Some s'
               ∧ calls s' !! tid = Some (CallReturned fn0 args0 i))
  | CallReturned fn0 args0 i =>
      [EvNewCallTask tid fn0 args0; EvAdd tid i; EvReady tid i;
       EvCallAsyncReturned tid] `sublist_of` log s
      ∧ (∃ o, [EvExecuted i o; EvCallAsyncReturned tid] `sublist_of` log s)
      ∧ is_call_task (loop (cell s)) i fn0 args0
      ∧ step s (CallAsyncGo tid) = None
  end.
Proof.
  intros Hr Hlk.
  destruct (reachable_invariant s Hr) as (_ & _ & _ & Ht & Hc).
  pose proof (Hc _ _ Hlk) as Hpc.
  assert (tid < length (calls s))%nat as Hlt by (eapply lookup_lt_Some; eauto).
  destruct pc as [fn0 args0|fn0 args0 task|fn0 args0 i|fn0 args0 i|fn0 args0 i];
    simpl in Hpc.
  - eexists. unfold step, step_call. rewrite Hlk. split; [reflexivity|].
    simpl. now apply list_lookup_insert_eq.
  - destruct Hpc as [-> _]. split; [reflexivity|].
    assert (∃ s', step s (CallAsyncGo tid) = Some s') as [s' Hstep].
    { unfold step, step_call. rewrite Hlk. simpl. eauto. }
    pose proof (reachable_step _ _ _ Hr Hstep) as Hr'.
    destruct (reachable_invariant s' Hr') as (_ & _ & _ & _ & Hc').
    exists s', (length (tasks (loop (cell s)))). split; [assumption|].
    assert (calls s' !! tid
            = Some (CallAdded fn0 args0 (length (tasks (loop (cell s)))))) as Hlk'.
    { unfold step, step_call in Hstep. rewrite Hlk in Hstep. simpl in Hstep.
      simplify_eq. simpl. now apply list_lookup_insert_eq. }
    split; [assumption|]. apply (Hc' _ _ Hlk').
  - destruct Hpc as [_ Htask]. split; [assumption|].
    destruct Htask as (t & Hi & _).
    exists (emit (EvReady tid i)
              (set_calls (<[tid := CallBlocked fn0 args0 i]> (calls s))
                 (set_cell
                    (set_loop (Ready_mark (clock s) i (loop (cell s))) (cell s)) s))),
           (mark_ready (clock s) t).
    split; [unfold step, step_call; now rewrite Hlk|]. simpl.
    split; [now apply list_lookup_insert_eq|].
    unfold Ready_mark. rewrite Hi. simpl. split.
    + apply list_lookup_insert_eq. eapply lookup_lt_Some; eauto.
    + unfold mark_ready. destruct (state t) eqn:E; simpl; congruence.
  - destruct Hpc as [Hsub Htask]. split; [assumption|]. split; [assumption|].
    unfold step, step_call. rewrite Hlk. split.
    + intros ->. reflexivity.
    + intros ->. eexists. split; [reflexivity|]. simpl.
      now apply list_lookup_insert_eq.
  - destruct Hpc as (Hsub & Ho & Htask). repeat split; auto.
    unfold step, step_call. now rewrite Hlk.
Qed.

Lemma CallAsync_waits_for_its_task_witness :
  reachable (@after plain_host (call_scenario (Returned ValUndefined)))
  ∧ calls (@after plain_host (call_scenario (Returned ValUndefined))) !! 0%nat
    = Some (CallReturned (ValObject 1) [ValNumber 2] 0)
  ∧ [EvNewCallTask 0 (ValObject 1) [ValNumber 2]; EvAdd 0 0; EvReady 0 0;
     EvCallAsyncReturned 0]
      `sublist_of` log (@after plain_host (call_scenario (Returned ValUndefined)))
  ∧ ∃ o, [EvExecuted 0 o; EvCallAsyncReturned 0]
           `sublist_of` log (@after plain_host (call_scenario (Returned ValUndefined))).
Proof.
  assert (reachable (@after plain_host (call_scenario (Returned ValUndefined)))) as Hr.
  { exists "cell", (call_scenario (Returned ValUndefined)). vm_compute. reflexivity. }
  assert (calls (@after plain_host (call_scenario (Returned ValUndefined))) !! 0%nat
          = Some (CallReturned (ValObject 1) [ValNumber 2] 0)) as Hlk.
  { vm_compute. reflexivity. }
  split; [exact Hr|]. split; [exact Hlk|].
  destruct (CallAsync_waits_for_its_task _ _ _ Hr Hlk) as (Hsub & Ho & _).
  split; [exact Hsub|exact Ho].
Defined.

(** C2 (amended).  When the loop executes the task of a waiting [CallAsync]
    and the body throws, the loop goes on (it is still inside [Run], the
    terminal error is untouched, the channel is open), the exception is in
    the completion signal of the task, and the caller's next step is its
    return, which carries nothing. *)
Theorem script_exception_stays_with_the_task `{Host}
    (s s' : State) (tid : nat) (fn0 : Value) (args0 : list Value) (i : nat)
    (exc : Value) (t : Task) :
  reachable s ->
  calls s !! tid = Some (CallBlocked fn0 args0 i) ->
  pick (clock s) (loop (cell s)) = Some t -> task_id t = i ->
  step s (LoopExec (Threw exc)) = Some s' ->
  gpc s' = GRun
  ∧ loopErr (cell s') = loopErr (cell s)
  ∧ loopStopped (cell s') = false
  ∧ (∃ t', tasks (loop (cell s')) !! i = Some t' ∧ state t' = Done
           ∧ completion t' = Some (Some (Threw exc)))
  ∧ ∃ s'', step s' (CallAsyncGo tid) = Some s''
           ∧ calls s'' !! tid = Some (CallReturned fn0 args0 i).
Proof.
  intros Hr Hlk Hpick Hid Hstep.
  destruct (reachable_invariant s Hr) as (Hl & _ & _ & Ht & Hc).
  pose proof (Hc _ _ Hlk) as [_ (ti & Hi & _ & _ & _ & Hsig)].
  destruct (pick_lookup _ _ _ Hpick) as [j Hj].
  destruct (Ht _ _ Hj) as [Hidj _].
  assert (j = i) as -> by congruence. assert (ti = t) as -> by congruence.
  unfold loop_inv in Hl. simpl in Hstep. unfold step_exec in Hstep.
  destruct (gpc s) eqn:Hg; try discriminate.
  destruct (ctx_done (cancel (cell s))); [discriminate|].
  rewrite Hpick in Hstep. simplify_eq. simpl.
  destruct Hl as (_ & _ & Hopen).
  split; [assumption|]. split; [reflexivity|]. split; [assumption|].
  destruct (tasks_execute (clock s) t (Threw exc) (loop (cell s)))
    as (again & Heq & _).
  assert (tasks (execute (clock s) t (Threw exc) (loop (cell s))) !! task_id t
          = Some {| task_id := task_id t; tag := tag t; fn := fn t; args := args t;
                    readiness := readiness t; readyAt := readyAt t; state := Done;
                    completion := Some (Some (Threw exc)) |}) as Hdone.
  { rewrite Heq. apply lookup_app_l_Some.
    rewrite list_lookup_insert_eq by (eapply lookup_lt_Some; eauto).
    now rewrite (deliver_is_Some _ _ Hsig). }
  split; [eexists; split; [exact Hdone|auto]|].
  unfold step, step_call. simpl. rewrite Hlk. unfold finished. simpl.
  rewrite Hdone. simpl. eexists. split; [reflexivity|]. simpl.
  apply list_lookup_insert_eq. eapply lookup_lt_Some; eauto.
Qed.

Lemma script_exception_stays_with_the_task_witness :
  reachable (@after plain_host (take 4 (call_scenario (Threw (ValString "boom")))))
  ∧ gpc (@after plain_host (take 5 (call_scenario (Threw (ValString "boom"))))) = GRun
  ∧ loopStopped (cell (@after plain_host (take 5 (call_scenario (Threw (ValString "boom"))))))
    = false
  ∧ ∃ t', tasks (loop (cell (@after plain_host
                               (take 5 (call_scenario (Threw (ValString "boom")))))))
            !! 0%nat = Some t'
          ∧ state t' = Done
          ∧ completion t' = Some (Some (Threw (ValString "boom"))).
Proof.
  assert (reachable (@after plain_host (take 4 (call_scenario (Threw (ValString "boom"))))))
    as Hr.
  { exists "cell", (take 4 (call_scenario (Threw (ValString "boom")))).
    vm_compute. reflexivity. }
  split; [exact Hr|].
  destruct (script_exception_stays_with_the_task
              (@after plain_host (take 4 (call_scenario (Threw (ValString "boom")))))
              (@after plain_host (take 5 (call_scenario (Threw (ValString "boom")))))
              0%nat (ValObject 1) [ValNumber 2] 0%nat (ValString "boom")
              {| task_id := 0; tag := Call; fn := ValObject 1; args := [ValNumber 2];
                 readiness := Immediate; readyAt := 0; state := Ready;
                 completion := Some None |}
              Hr)
    as (Hg & _ & Hopen & Hsig & _);
    [vm_compute; reflexivity ..|].
  split; [exact Hg|]. split; [exact Hopen|exact Hsig].
Defined.

(** C2 as stated fails: [CallAsync] has no results.  Whether the body of the
    call throws or returns, the thread that called comes back with the
    same, nothing; the exception is only in the task. *)
Lemma CallAsync_hands_back_nothing :
  ∃ s1 s2,
    @run plain_host (NewCell "cell") (call_scenario (Threw (ValString "boom"))) = Some s1
    ∧ @run plain_host (NewCell "cell") (call_scenario (Returned ValUndefined)) = Some s2
    ∧ In (EvExecuted 0 (Threw (ValString "boom"))) (log s1)
    ∧ In (EvExecuted 0 (Returned ValUndefined)) (log s2)
    ∧ calls s1 !! 0%nat = Some (CallReturned (ValObject 1) [ValNumber 2] 0)
    ∧ calls s1 !! 0%nat = calls s2 !! 0%nat.
Proof.
  eexists _, _. split; [vm_compute; reflexivity|].
  split; [vm_compute; reflexivity|].
  simpl. repeat split; auto 10.
Qed.

(** C1, on a host whose timer registration fails: [registerVMHandlers]
    reports the error, and [NewCell] still returns a cell, with its
    goroutine started and no binding registered, that takes calls. *)
Theorem NewCell_drops_registration_error :
  fst (@registerVMHandlers failing_host vm_New loop_New) ≠ error_nil
  ∧ @VM failing_host (cell (@NewCell failing_host "cell")) = []
  ∧ gpc (@NewCell failing_host "cell") = GRun
  ∧ loopStopped (cell (@NewCell failing_host "cell")) = false
  ∧ is_Some (step (@NewCell failing_host "cell") (CallAsyncCall (ValObject 1) []))
  ∧ is_Some (step (@NewCell failing_host "cell") StopCall).
Proof.
  split; [vm_compute; discriminate|].
  repeat split; vm_compute; eauto.
Qed.

(** * Further properties of the cell *)

Section Further.
Context `{Host}.

Lemma reachable_ind (P : State -> Prop) :
  (∀ id, P (NewCell id)) ->
  (∀ s l s', reachable s -> P s -> step s l = Some s' -> P s') ->
  ∀ s, reachable s -> P s.
Proof.
  intros Hinit Hstep s (id & ls & Hrun).
  assert (∀ ls s0 s1, reachable s0 -> P s0 -> run s0 ls = Some s1 -> P s1) as Hgen.
  { clear ls Hrun. induction ls as [|l ls IH]; simpl; intros s0 s1 Hr HP Hrun.
    - now simplify_eq.
    - destruct (step s0 l) as [s2|] eqn:Hs; [|discriminate].
      eapply (IH s2); eauto using reachable_step. }
  eapply (Hgen ls (NewCell id)); eauto. exists id, []. reflexivity.
Qed.

Lemma loop_events_sublist (l : list Event) : loop_events l `sublist_of` l.
Proof.
  induction l as [|e l IH]; simpl; [constructor|].
  destruct (loop_event e); now constructor.
Qed.

Lemma close_position (l1 l2 : list Event) (e : error) :
  l1 ++ EvLoopStoppedClosed :: l2
  = EvRunReturned e :: assignments e ++ [EvLoopStoppedClosed] ->
  l1 = EvRunReturned e :: assignments e ∧ l2 = [].
Proof.
  intros Heq.
  destruct l1 as [|x l1]; simpl in Heq; [discriminate|].
  injection Heq as -> Heq.
  unfold assignments in *. case_bool_decide; simpl in Heq.
  - destruct l1 as [|y l1]; simpl in Heq; [discriminate|].
    injection Heq as -> Heq.
    destruct l1 as [|z l1]; simpl in Heq; [now simplify_eq|].
    injection Heq as -> Heq. destruct l1; discriminate.
  - destruct l1 as [|z l1]; simpl in Heq; [now simplify_eq|].
    injection Heq as -> Heq. destruct l1; discriminate.
Qed.

Lemma closed_iff_done (s : State) :
  loop_inv s -> (loopStopped (cell s) = true <-> ∃ t, gpc s = GDone t).
Proof.
  unfold loop_inv. intros Hl. split.
  - intros Hst. destruct (gpc s); eauto;
      repeat match goal with E : ∃ _, _ |- _ => destruct E end;
      destruct_and?; congruence.
  - intros [t Hg]. rewrite Hg in Hl. destruct Hl as (? & ? & ? & ? & ?). assumption.
Qed.

End Further.

(** X1.  The channel [loopStopped] is closed exactly when the goroutine has
    finished.  The close is in the log once at most, with the return of
    [Run] before it and no event of the goroutine after it; and once the
    channel is closed the goroutine takes no further step: [Run] does not
    return again, no task is executed, nothing is closed twice. *)
Theorem loopStopped_closed_once_after_Run `{Host} (s : State) :
  reachable s ->
  (loopStopped (cell s) = true <-> In EvLoopStoppedClosed (log s))
  ∧ (loopStopped (cell s) = true <-> ∃ t, gpc s = GDone t)
  ∧ (∀ l1 l2,
       log s = l1 ++ EvLoopStoppedClosed :: l2 ->
       (∃ err, In (EvRunReturned err) l1)
       ∧ ¬ In EvLoopStoppedClosed (l1 ++ l2)
       ∧ ∀ e, In e l2 -> loop_event e = false)
  ∧ (loopStopped (cell s) = true ->
     step s LoopGo = None
     ∧ (∀ r, step s (RunReturns r) = None)
     ∧ ∀ o, step s (LoopExec o) = None).
Proof.
  intros Hr. destruct (reachable_invariant s Hr) as (Hl & _).
  pose proof (closed_iff_done s Hl) as Hdone.
  assert (∀ l1 l2, log s = l1 ++ EvLoopStoppedClosed :: l2 ->
          ∃ e, loop_events l1 = EvRunReturned e :: assignments e
               ∧ loop_events l2 = [] ∧ ∃ t, gpc s = GDone t) as Hpos.
  { intros l1 l2 Hlog.
    assert (loop_events (log s)
            = loop_events l1 ++ EvLoopStoppedClosed :: loop_events l2) as Hev.
    { rewrite Hlog, loop_events_app. reflexivity. }
    unfold loop_inv in Hl. destruct (gpc s) eqn:Hg.
    - destruct Hl as [Hl _]. rewrite Hl in Hev. destruct (loop_events l1); discriminate.
    - destruct Hl as [Hl _]. rewrite Hl in Hev.
      destruct (loop_events l1) as [|? [|? ?]]; discriminate.
    - destruct Hl as [Hl _]. rewrite Hl in Hev.
      destruct (loop_events l1) as [|? [|? ?]]; discriminate.
    - destruct Hl as (e & Hl & _). rewrite Hl in Hev. exfalso.
      assert (In EvLoopStoppedClosed (EvRunReturned e :: assignments e)) as Hin
        by (rewrite Hev; apply in_or_app; simpl; auto).
      destruct Hin as [?|Hin]; [discriminate|].
      apply In_assignments in Hin. discriminate.
    - destruct Hl as (e & Hl & _). rewrite Hl in Hev. symmetry in Hev.
      apply close_position in Hev. destruct Hev as [? ?]. eauto 10. }
  split; [|split; [exact Hdone|split]].
  - split.
    + intros Hst. apply Hdone in Hst. destruct Hst as [t Hg].
      unfold loop_inv in Hl. rewrite Hg in Hl. destruct Hl as (e & Hev & _).
      assert (In EvLoopStoppedClosed (loop_events (log s))) as Hin.
      { rewrite Hev. right. apply in_or_app. simpl. auto. }
      apply filter_In in Hin. tauto.
    + intros Hin. apply list_elem_of_In, list_elem_of_split in Hin.
      destruct Hin as (l1 & l2 & Hlog).
      destruct (Hpos _ _ Hlog) as (_ & _ & _ & Hg). apply Hdone, Hg.
  - intros l1 l2 Hlog. destruct (Hpos _ _ Hlog) as (e & H1 & H2 & _).
    split; [|split].
    + exists e. assert (In (EvRunReturned e) (loop_events l1)) as Hin
        by (rewrite H1; simpl; auto).
      apply filter_In in Hin. tauto.
    + intros Hin. apply in_app_or in Hin. destruct Hin as [Hin|Hin];
        (apply In_loop_events in Hin; [|reflexivity]).
      * rewrite H1 in Hin. destruct Hin as [?|Hin]; [discriminate|].
        apply In_assignments in Hin. discriminate.
      * rewrite H2 in Hin. destruct Hin.
    + intros e' Hin. destruct (loop_event e') eqn:E; [|reflexivity].
      apply In_loop_events in Hin; [|assumption]. rewrite H2 in Hin. destruct Hin.
  - intros Hst. apply Hdone in Hst. destruct Hst as [t Hg].
    unfold step, step_loop, step_exec. rewrite Hg. auto.
Qed.

Lemma loopStopped_closed_once_witness :
  reachable (@after plain_host stop_twice)
  ∧ loopStopped (cell (@after plain_host stop_twice)) = true
  ∧ @step plain_host (after stop_twice) LoopGo = None
  ∧ In EvLoopStoppedClosed (log (@after plain_host stop_twice)).
Proof.
  assert (reachable (@after plain_host stop_twice)) as Hr.
  { exists "cell", stop_twice. vm_compute. reflexivity. }
  assert (loopStopped (cell (@after plain_host stop_twice)) = true) as Hst.
  { vm_compute. reflexivity. }
  split; [exact Hr|]. split; [exact Hst|].
  destruct (loopStopped_closed_once_after_Run _ Hr) as (Hlog & _ & _ & Hstuck).
  split; [exact (proj1 (Hstuck Hst))|exact (proj1 Hlog Hst)].
Defined.

Section Cancellation.
Context `{Host}.

Lemma cancel_inv_init (id : string) : cancel_inv (NewCell id).
Proof.
  split; [split|]; simpl.
  - discriminate.
  - intros [tid []].
  - intros tid [].
Qed.

(** A step that is not the [c.cancel()] of a [Stop] keeps the controller as
    it is and logs no cancellation. *)
Lemma cancel_inv_frame (s s' : State) (k : list Event) :
  cancel_inv s ->
  ctx_done (cancel (cell s')) = ctx_done (cancel (cell s)) ->
  log s' = log s ++ k -> (∀ tid, ¬ In (EvCancel tid) k) ->
  (∀ tid pc, stops s !! tid = Some pc -> pc ≠ StopEntered ->
             ∃ pc', stops s' !! tid = Some pc' ∧ pc' ≠ StopEntered) ->
  cancel_inv s'.
Proof.
  intros [Hiff Hthr] Hc Hlog Hk Hst.
  assert (∀ tid, In (EvCancel tid) (log s') <-> In (EvCancel tid) (log s)) as Hin.
  { intros tid. rewrite Hlog, in_app_iff. specialize (Hk tid). tauto. }
  split.
  - rewrite Hc, Hiff. split; intros [tid ?]; exists tid; now apply Hin.
  - intros tid Ht. apply Hin, Hthr in Ht. destruct Ht as (pc & ? & ?). eauto.
Qed.

Lemma cancel_inv_step (s s' : State) (l : Label) :
  cancel_inv s -> step s l = Some s' -> cancel_inv s'.
Proof.
  intros Hinv Hstep.
  step_cases Hstep.
  all: try (eapply (cancel_inv_frame s);
            [ assumption | reflexivity
            | simpl; first [reflexivity | symmetry; apply app_nil_r]
            | simpl; intros ? Hin; repeat destruct Hin as [Hin|Hin]; now try discriminate
            | simpl; intros tid' pc' Hlk' Hne;
              first
                [ now eauto
                | exists pc'; split; [now apply lookup_app_l_Some|assumption]
                | destruct (decide (tid = tid')) as [<-|?];
                  [ eexists; split;
                    [apply list_lookup_insert_eq; eapply lookup_lt_Some; eauto
                    |discriminate]
                  | exists pc'; split;
                    [now rewrite list_lookup_insert_ne|assumption] ] ] ];
            fail).
  (* c.cancel() *)
  destruct Hinv as [Hiff Hthr]. split; simpl.
  - split; [intros _|reflexivity]. exists tid. apply in_or_app. simpl. auto.
  - intros tid' Hin. apply in_app_or in Hin.
    destruct (decide (tid = tid')) as [<-|Hne].
    + eexists. split; [apply list_lookup_insert_eq; eapply lookup_lt_Some; eauto|].
      discriminate.
    + destruct Hin as [Hin|[Hin|[]]]; [|congruence].
      destruct (Hthr _ Hin) as (pc & ? & ?). exists pc.
      split; [now rewrite list_lookup_insert_ne|assumption].
Qed.

Lemma tripped_step (s s' : State) (l : Label) :
  ctx_done (cancel (cell s)) = true -> step s l = Some s' ->
  ctx_done (cancel (cell s')) = true.
Proof. intros Hc Hstep. step_cases Hstep; auto. Qed.

Lemma tripped_run (ls : list Label) (s s' : State) :
  ctx_done (cancel (cell s)) = true -> run s ls = Some s' ->
  ctx_done (cancel (cell s')) = true.
Proof.
  revert s. induction ls as [|l ls IH]; simpl; intros s Hc Hrun.
  - now simplify_eq.
  - destruct (step s l) as [s1|] eqn:Hstep; [|discriminate].
    eauto using tripped_step.
Qed.

End Cancellation.

(** X2.  The cancellation controller of a cell is tripped by [Stop] and by
    nothing else: it is tripped exactly when the [c.cancel()] of some thread
    is in the log, a thread that is in [Stop] and past that statement; on a
    cell nobody has called [Stop] on it is not tripped; and tripped it
    stays. *)
Theorem cancel_only_by_Stop `{Host} (s : State) :
  reachable s ->
  (ctx_done (cancel (cell s)) = true <-> ∃ tid, In (EvCancel tid) (log s))
  ∧ (ctx_done (cancel (cell s)) = true <->
     ∃ tid pc, stops s !! tid = Some pc ∧ pc ≠ StopEntered)
  ∧ (stops s = [] -> ctx_done (cancel (cell s)) = false)
  ∧ (ctx_done (cancel (cell s)) = true ->
     ∀ ls s', run s ls = Some s' -> ctx_done (cancel (cell s')) = true).
Proof.
  intros Hr.
  assert (cancel_inv s) as [Hiff Hthr].
  { revert s Hr. apply reachable_ind; [apply cancel_inv_init|].
    intros s l s' _. apply cancel_inv_step. }
  destruct (reachable_invariant s Hr) as (_ & Hs & _).
  assert (ctx_done (cancel (cell s)) = true <->
          ∃ tid pc, stops s !! tid = Some pc ∧ pc ≠ StopEntered) as Hpast.
  { split.
    - intros Hc. apply Hiff in Hc. destruct Hc as [tid Hin].
      destruct (Hthr _ Hin) as (pc & ? & ?). eauto.
    - intros (tid & pc & Hlk & Hne). pose proof (Hs _ _ Hlk) as Hpc.
      destruct pc as [| |?|? ? [] ?]; simpl in Hpc; tauto. }
  split; [exact Hiff|]. split; [exact Hpast|]. split.
  - intros Hnil. destruct (ctx_done (cancel (cell s))) eqn:E; [|reflexivity].
    destruct (proj1 Hpast eq_refl) as (tid & pc & Hlk & _).
    rewrite Hnil in Hlk. discriminate.
  - intros Hc ls s' Hrun. eapply tripped_run; eauto.
Qed.

Lemma cancel_only_by_Stop_witness :
  reachable (@after plain_host call_then_stop)
  ∧ ctx_done (cancel (cell (@after plain_host call_then_stop))) = true
  ∧ ∃ tid, In (EvCancel tid) (log (@after plain_host call_then_stop)).
Proof.
  assert (reachable (@after plain_host call_then_stop)) as Hr.
  { exists "cell", call_then_stop. vm_compute. reflexivity. }
  split; [exact Hr|].
  destruct (cancel_only_by_Stop _ Hr) as (Hiff & _).
  assert (ctx_done (cancel (cell (@after plain_host call_then_stop))) = true) as Hc.
  { vm_compute. reflexivity. }
  split; [exact Hc|exact (proj1 Hiff Hc)].
Defined.

Section Results.
Context `{Host}.

Lemma terminal_not_Canceled (err : error) : terminal err ≠ context_Canceled.
Proof. unfold terminal. case_bool_decide; [assumption|discriminate]. Qed.

Lemma loopErr_not_Canceled (s : State) :
  loop_inv s -> loopErr (cell s) ≠ context_Canceled.
Proof.
  unfold loop_inv. intros Hl.
  destruct (gpc s); repeat match goal with E : ∃ _, _ |- _ => destruct E end;
    destruct_and?;
    match goal with
    | E : loopErr _ = error_nil |- _ => rewrite E; discriminate
    | E : loopErr _ = terminal _ |- _ => rewrite E; apply terminal_not_Canceled
    end.
Qed.

Lemma exit_order_inv_init (id : string) : exit_order_inv (NewCell id).
Proof. intros tid since at_ r Hlk. simpl in Hlk. discriminate. Qed.

Lemma exit_order_inv_step (s s' : State) (l : Label) :
  loop_inv s -> exit_order_inv s -> step s l = Some s' -> exit_order_inv s'.
Proof.
  intros Hl Hinv Hstep tid since at_ r Hlk.
  step_cases Hstep.
  all: split_lookup Hlk.
  all: try (destruct (Hinv _ _ _ _ Hlk) as [e0 Hsub]; exists e0;
            first [exact Hsub | apply sublist_inserts_r, Hsub]; fail).
  (* the exit case of the select *)
  match goal with E : loopStopped _ = true |- _ =>
    apply (closed_iff_done s Hl) in E; destruct E as [t Hg] end.
  unfold loop_inv in Hl. rewrite Hg in Hl. destruct Hl as (e0 & Hev & _).
  exists e0. apply (sublist_snoc [EvRunReturned e0; EvLoopStoppedClosed]).
  etransitivity; [|apply loop_events_sublist]. rewrite Hev.
  apply sublist_skip. apply sublist_inserts_l. reflexivity.
Qed.

Lemma executions_snoc (l : list Event) (e : Event) :
  executions (l ++ [e]) = executions l ++ (if execution e then [e] else []).
Proof.
  unfold executions. rewrite List.filter_app. simpl. now destruct (execution e).
Qed.

Lemma done_step_executions (s s' : State) (l : Label) (t : N) :
  gpc s = GDone t -> step s l = Some s' -> executions (log s') = executions (log s).
Proof.
  intros Hg Hstep. step_cases Hstep; rewrite ?Hg in *; simplify_eq;
    rewrite ?executions_snoc; simpl; rewrite ?app_nil_r; reflexivity.
Qed.

Lemma done_run_executions (ls : list Label) (s s' : State) (t : N) :
  gpc s = GDone t -> run s ls = Some s' -> executions (log s') = executions (log s).
Proof.
  revert s. induction ls as [|l ls IH]; simpl; intros s Hg Hrun.
  - now simplify_eq.
  - destruct (step s l) as [s1|] eqn:Hstep; [|discriminate].
    destruct (done_step _ _ _ _ Hg Hstep) as [Hg1 _].
    rewrite (IH _ Hg1 Hrun). eapply done_step_executions; eauto.
Qed.

End Results.

(** X3.  Neither the terminal error of a cell nor anything [Stop] returns is
    ever [context.Canceled]: the goroutine keeps that result of [Run] out of
    [loopErr].  What [Stop] returns through the exit-signal case is [nil] or
    the very value [Run] returned. *)
Theorem Stop_never_returns_Canceled `{Host} (s : State) :
  reachable s ->
  loopErr (cell s) ≠ context_Canceled
  ∧ ∀ tid since at_ b r,
      stops s !! tid = Some (StopReturned since at_ b r) ->
      r ≠ context_Canceled
      ∧ (b = ExitSignal -> r = error_nil ∨ In (EvRunReturned r) (log s)).
Proof.
  intros Hr. destruct (reachable_invariant s Hr) as (Hl & Hs & Hh & _).
  pose proof (loopErr_not_Canceled s Hl) as Hne.
  split; [exact Hne|].
  intros tid since at_ b r Hlk. pose proof (Hs _ _ Hlk) as Hpc. simpl in Hpc.
  destruct b.
  - destruct Hpc as (_ & _ & -> & _ & _ & t & Hg & _). split; [exact Hne|].
    intros _. destruct (done_log s t Hl Hg) as (err & He & _ & Hin & _).
    rewrite He. unfold terminal. case_bool_decide; auto.
  - destruct Hh as (_ & _ & Hst). destruct (Hst _ _ _ _ Hlk) as (_ & _ & Hheld & _).
    split; [|discriminate]. intros ->. apply Hheld. unfold held_by_loop. auto.
Qed.

Lemma Stop_never_returns_Canceled_witness :
  reachable (@after plain_host stop_cancelled)
  ∧ loopErr (cell (@after plain_host stop_cancelled)) ≠ context_Canceled
  ∧ In (EvRunReturned context_Canceled) (log (@after plain_host stop_cancelled)).
Proof.
  assert (reachable (@after plain_host stop_cancelled)) as Hr.
  { exists "cell", stop_cancelled. vm_compute. reflexivity. }
  split; [exact Hr|]. split.
  - exact (proj1 (Stop_never_returns_Canceled _ Hr)).
  - vm_compute. auto.
Defined.

(** X4.  When [Stop] returns: never before it began to wait; through the
    exit-signal case at the moment the channel was closed, or at the moment
    it began to wait if the channel was closed by then; through the timer
    case exactly one second after it began to wait, and then not after the
    close. *)
Theorem Stop_return_time `{Host}
    (s : State) (tid : nat) (since at_ : N) (b : Branch) (r : error) :
  reachable s ->
  stops s !! tid = Some (StopReturned since at_ b r) ->
  since <= at_ ∧ at_ <= clock s
  ∧ match b with
    | ExitSignal => ∃ t, gpc s = GDone t ∧ at_ = N.max t since
    | TimerFired =>
        at_ = since + time_Second ∧ ∀ t, gpc s = GDone t -> at_ <= t
    end.
Proof.
  intros Hr Hlk. destruct (reachable_invariant s Hr) as (_ & Hs & _).
  pose proof (Hs _ _ Hlk) as Hpc. simpl in Hpc. destruct b.
  - destruct Hpc as (_ & _ & _ & ? & _ & t & Hg & ->).
    split; [lia|]. split; [assumption|]. eauto.
  - destruct Hpc as (_ & _ & -> & ? & Hd). split; [lia|]. auto.
Qed.

Lemma Stop_return_time_witness :
  reachable (@after plain_host stop_twice)
  ∧ stops (@after plain_host stop_twice) !! 1%nat
    = Some (StopReturned time_Second time_Second ExitSignal (Some 2%nat))
  ∧ ∃ t, gpc (@after plain_host stop_twice) = GDone t
         ∧ time_Second = N.max t time_Second.
Proof.
  assert (reachable (@after plain_host stop_twice)) as Hr.
  { exists "cell", stop_twice. vm_compute. reflexivity. }
  assert (stops (@after plain_host stop_twice) !! 1%nat
          = Some (StopReturned time_Second time_Second ExitSignal (Some 2%nat))) as Hlk.
  { vm_compute. reflexivity. }
  split; [exact Hr|]. split; [exact Hlk|].
  exact (proj2 (proj2 (Stop_return_time _ _ _ _ _ _ Hr Hlk))).
Defined.

(** X5.  When [Stop] has returned through the exit-signal case, [Run] had
    returned and the goroutine had closed the channel before: the log has
    the three events in that order.  From then on the loop executes no
    task. *)
Theorem exit_return_follows_close `{Host}
    (s : State) (tid : nat) (since at_ : N) (r : error) :
  reachable s ->
  stops s !! tid = Some (StopReturned since at_ ExitSignal r) ->
  (∃ err, [EvRunReturned err; EvLoopStoppedClosed; EvStopReturned tid ExitSignal r]
            `sublist_of` log s)
  ∧ (∀ o, step s (LoopExec o) = None)
  ∧ ∀ ls s', run s ls = Some s' -> executions (log s') = executions (log s).
Proof.
  intros Hr.
  assert (exit_order_inv s) as Hord.
  { revert s Hr. apply reachable_ind; [apply exit_order_inv_init|].
    intros s l s' Hr' IH Hstep.
    destruct (reachable_invariant s Hr') as (Hl & _).
    eapply exit_order_inv_step; eauto. }
  intros Hlk.
  destruct (reachable_invariant s Hr) as (_ & Hs & _).
  pose proof (Hs _ _ Hlk) as Hpc. simpl in Hpc.
  destruct Hpc as (_ & _ & _ & _ & _ & t & Hg & _).
  split; [exact (Hord _ _ _ _ Hlk)|]. split.
  - intros o. unfold step, step_exec. now rewrite Hg.
  - intros ls s' Hrun. eapply done_run_executions; eauto.
Qed.

Lemma exit_return_follows_close_witness :
  reachable (@after plain_host stop_twice)
  ∧ stops (@after plain_host stop_twice) !! 1%nat
    = Some (StopReturned time_Second time_Second ExitSignal (Some 2%nat))
  ∧ (∃ err, [EvRunReturned err; EvLoopStoppedClosed;
             EvStopReturned 1 ExitSignal (Some 2%nat)]
              `sublist_of` log (@after plain_host stop_twice))
  ∧ ∀ o, @step plain_host (after stop_twice) (LoopExec o) = None.
Proof.
  assert (reachable (@after plain_host stop_twice)) as Hr.
  { exists "cell", stop_twice. vm_compute. reflexivity. }
  assert (stops (@after plain_host stop_twice) !! 1%nat
          = Some (StopReturned time_Second time_Second ExitSignal (Some 2%nat))) as Hlk.
  { vm_compute. reflexivity. }
  split; [exact Hr|]. split; [exact Hlk|].
  destruct (exit_return_follows_close _ _ _ _ _ Hr Hlk) as (Hord & Hexec & _).
  split; [exact Hord|exact Hexec].
Defined.

(** X6.  As long as the goroutine has not closed [loopStopped] (the loop is
    still in [Run], or has just left it), the exit-signal case of no [Stop]
    can be taken, and every [Stop] that has returned did so through the
    timer case, with the error of the timeout. *)
Theorem Stop_times_out_while_loop_runs `{Host} (s : State) :
  reachable s ->
  loopStopped (cell s) = false ->
  (∀ tid, step s (StopWake tid ExitSignal) = None)
  ∧ ∀ tid since at_ b r,
      stops s !! tid = Some (StopReturned since at_ b r) ->
      b = TimerFired ∧ Error (heap s) r = Some "stopping the cell timed out".
Proof.
  intros Hr Hopen. destruct (reachable_invariant s Hr) as (Hl & Hs & Hh & _).
  split.
  - intros tid. unfold step, step_wake.
    destruct (stops s !! tid) as [[| |since|? ? ? ?]|]; try reflexivity.
    now rewrite Hopen.
  - intros tid since at_ b r Hlk. pose proof (Hs _ _ Hlk) as Hpc. simpl in Hpc.
    destruct b.
    + destruct Hpc as (_ & _ & _ & _ & _ & t & Hg & _).
      assert (loopStopped (cell s) = true) by (apply closed_iff_done; eauto).
      congruence.
    + split; [reflexivity|]. destruct Hh as (_ & _ & Hst).
      now destruct (Hst _ _ _ _ Hlk) as (_ & He & _).
Qed.

Lemma Stop_times_out_while_loop_runs_witness :
  reachable (@after plain_host stop_timed_out)
  ∧ loopStopped (cell (@after plain_host stop_timed_out)) = false
  ∧ Error (heap (@after plain_host stop_timed_out)) (Some 1%nat)
    = Some "stopping the cell timed out".
Proof.
  assert (reachable (@after plain_host stop_timed_out)) as Hr.
  { exists "cell", stop_timed_out. vm_compute. reflexivity. }
  assert (loopStopped (cell (@after plain_host stop_timed_out)) = false) as Hopen.
  { vm_compute. reflexivity. }
  split; [exact Hr|]. split; [exact Hopen|].
  destruct (Stop_times_out_while_loop_runs _ Hr Hopen) as [_ Hret].
  apply (Hret 0%nat 0 time_Second TimerFired). vm_compute. reflexivity.
Defined.

Section Finished.
Context `{Host}.

Lemma finished_Add (now : N) (t : Task) (lo : Loop) (i : nat) :
  finished i (snd (Add now t lo)) = finished i lo.
Proof.
  unfold finished. simpl.
  destruct (decide (i < length (tasks lo))%nat) as [Hlt|Hge].
  - now rewrite lookup_app_l.
  - rewrite (lookup_ge_None_2 (tasks lo)) by lia.
    destruct ((tasks lo ++ _) !! i) as [t'|] eqn:E; [|reflexivity].
    apply lookup_snoc_Some in E. destruct E as [[? ?]|[_ <-]]; [lia|reflexivity].
Qed.

Lemma finished_Ready_mark (now : N) (j : nat) (lo : Loop) (i : nat) :
  finished i (Ready_mark now j lo) = finished i lo.
Proof.
  unfold finished, Ready_mark.
  destruct (tasks lo !! j) as [t|] eqn:Hj; [|reflexivity]. simpl.
  destruct (decide (j = i)) as [->|Hne].
  - rewrite list_lookup_insert_eq by (eapply lookup_lt_Some; eauto).
    rewrite Hj. unfold mark_ready. destruct (state t) eqn:E; simpl; rewrite ?E; reflexivity.
  - now rewrite list_lookup_insert_ne.
Qed.

End Finished.

Section OneTaskEach.
Context `{Host}.

Lemma length_tasks_execute (now : N) (t : Task) (o : Outcome) (lo : Loop) :
  (length (tasks lo) <= length (tasks (execute now t o lo)))%nat.
Proof.
  destruct (tasks_execute now t o lo) as (again & -> & _).
  rewrite length_app, length_insert. lia.
Qed.

Lemma length_tasks_Ready_mark (now : N) (i : nat) (lo : Loop) :
  length (tasks (Ready_mark now i lo)) = length (tasks lo).
Proof.
  unfold Ready_mark. destruct (tasks lo !! i); [|reflexivity].
  simpl. apply length_insert.
Qed.

Lemma own_inv_init (id : string) : own_inv (NewCell id).
Proof. intros tid pc i Hlk. simpl in Hlk. discriminate. Qed.

(** A step that neither adds a thread's task nor changes the threads. *)
Lemma own_inv_frame (s s' : State) :
  own_inv s -> calls s' = calls s ->
  (length (tasks (loop (cell s))) <= length (tasks (loop (cell s'))))%nat ->
  own_inv s'.
Proof.
  intros Hinv Hcalls Hlen tid pc i Hlk Hi. rewrite Hcalls in *.
  destruct (Hinv _ _ _ Hlk Hi) as [Hlt Hothers]. split; [lia|].
  intros tid' pc' Hne Hlk'. eauto.
Qed.

(** A step after which every thread has the task it had, or none, or (one
    thread) the task that was just added at the end. *)
Lemma own_inv_update (s s' : State) :
  own_inv s ->
  (length (tasks (loop (cell s))) <= length (tasks (loop (cell s'))))%nat ->
  (∀ tid pc,
     calls s' !! tid = Some pc ->
     task_of pc = None
     ∨ (∃ pc0, calls s !! tid = Some pc0 ∧ task_of pc0 = task_of pc)
     ∨ (task_of pc = Some (length (tasks (loop (cell s))))
        ∧ (length (tasks (loop (cell s))) < length (tasks (loop (cell s'))))%nat
        ∧ ∀ tid', tid' ≠ tid -> calls s' !! tid' = calls s !! tid')) ->
  own_inv s'.
Proof.
  intros Hinv Hlen Hthr tid pc i Hlk Hi.
  destruct (Hthr _ _ Hlk) as [Hnone|[(pc0 & Hlk0 & Heq)|(Hnew & Hlt & Hsame)]].
  - congruence.
  - rewrite <- Heq in Hi. destruct (Hinv _ _ _ Hlk0 Hi) as [Hi_lt Hothers].
    split; [lia|]. intros tid' pc' Hne Hlk'.
    destruct (Hthr _ _ Hlk') as [Hnone|[(pc0' & Hlk0' & Heq')|(Hnew' & _ & _)]].
    + congruence.
    + rewrite <- Heq'. eauto.
    + rewrite Hnew'. intros [= <-]. lia.
  - rewrite Hnew in Hi. injection Hi as <-. split; [assumption|].
    intros tid' pc' Hne Hlk'. rewrite (Hsame _ Hne) in Hlk'.
    destruct (task_of pc') as [i'|] eqn:Hi'; [|discriminate].
    destruct (Hinv _ _ _ Hlk' Hi') as [Hlt' _]. intros [= ->]. lia.
Qed.

Lemma own_inv_step (s s' : State) (l : Label) :
  own_inv s -> step s l = Some s' -> own_inv s'.
Proof.
  intros Hinv Hstep.
  step_cases Hstep.
  all: try (apply (own_inv_frame s); [assumption|reflexivity|simpl; lia]; fail).
  - apply (own_inv_frame s); [assumption|reflexivity|]. simpl.
    apply length_tasks_execute.
  - apply (own_inv_update s); [assumption|simpl; lia|]. simpl.
    intros tid pc Hlk. split_lookup Hlk; [right; left; eauto|left; reflexivity].
  - apply (own_inv_update s); [assumption|simpl; lia|]. simpl.
    intros tid' pc Hlk. split_lookup Hlk; [left; reflexivity|right; left; eauto].
  - unfold Add in *. simplify_eq.
    apply (own_inv_update s); [assumption|simpl; rewrite length_app; lia|]. simpl.
    intros tid' pc Hlk. split_lookup Hlk; [|right; left; eauto].
    right. right. split; [reflexivity|]. split; [rewrite length_app; simpl; lia|].
    intros tid2 Hne. now rewrite list_lookup_insert_ne.
  - apply (own_inv_update s); [assumption|simpl; now rewrite length_tasks_Ready_mark|].
    simpl. intros tid' pc Hlk. split_lookup Hlk; right; left; eauto.
  - apply (own_inv_update s); [assumption|simpl; lia|]. simpl.
    intros tid' pc Hlk. split_lookup Hlk; right; left; eauto.
Qed.

End OneTaskEach.

(** X8.  Concurrent calls of [CallAsync] do not share a task: a thread that
    has added its task holds a task of the loop that carries its own [fn]
    and [args], and no other thread in [CallAsync] holds the same task, so
    no call is unblocked by the task of another. *)
Theorem CallAsync_calls_have_their_own_task `{Host}
    (s : State) (tid : nat) (pc : CallPC) (i : nat) :
  reachable s ->
  calls s !! tid = Some pc -> task_of pc = Some i ->
  (∃ fn0 args0,
     (pc = CallAdded fn0 args0 i ∨ pc = CallBlocked fn0 args0 i
      ∨ pc = CallReturned fn0 args0 i)
     ∧ is_call_task (loop (cell s)) i fn0 args0)
  ∧ ∀ tid' pc', tid' ≠ tid -> calls s !! tid' = Some pc' -> task_of pc' ≠ Some i.
Proof.
  intros Hr.
  assert (own_inv s) as Hown.
  { revert s Hr. apply reachable_ind; [apply own_inv_init|].
    intros s l s' _. apply own_inv_step. }
  destruct (reachable_invariant s Hr) as (_ & _ & _ & _ & Hc).
  intros Hlk Hi. split; [|apply (Hown _ _ _ Hlk Hi)].
  pose proof (Hc _ _ Hlk) as Hpc.
  destruct pc as [?|? ? ?|fn0 args0 j|fn0 args0 j|fn0 args0 j];
    simpl in Hi, Hpc; simplify_eq; exists fn0, args0; split; auto; tauto.
Qed.

Lemma CallAsync_calls_have_their_own_task_witness :
  reachable (@after plain_host two_calls)
  ∧ calls (@after plain_host two_calls) !! 0%nat
    = Some (CallReturned (ValObject 1) [] 1)
  ∧ calls (@after plain_host two_calls) !! 1%nat
    = Some (CallBlocked (ValObject 2) [ValNumber 7] 0)
  ∧ task_of (CallBlocked (ValObject 2) [ValNumber 7] 0) ≠ Some 1%nat.
Proof.
  assert (reachable (@after plain_host two_calls)) as Hr.
  { exists "cell", two_calls. vm_compute. reflexivity. }
  assert (calls (@after plain_host two_calls) !! 0%nat
          = Some (CallReturned (ValObject 1) [] 1)) as Hlk.
  { vm_compute. reflexivity. }
  assert (calls (@after plain_host two_calls) !! 1%nat
          = Some (CallBlocked (ValObject 2) [ValNumber 7] 0)) as Hlk'.
  { vm_compute. reflexivity. }
  split; [exact Hr|]. split; [exact Hlk|]. split; [exact Hlk'|].
  destruct (CallAsync_calls_have_their_own_task _ _ _ 1%nat Hr Hlk eq_refl)
    as [_ Hothers].
  apply (Hothers 1%nat); [discriminate|exact Hlk'].
Defined.

Section ExecutedOnce.
Context `{Host}.

Lemma earliest_eligible (now : N) (q : list Task) (best : option Task) (t : Task) :
  earliest now q best = Some t -> best = Some t ∨ eligible now t = true.
Proof.
  revert best. induction q as [|a q IH]; simpl; intros best Hb; [auto|].
  apply IH in Hb. destruct Hb as [Hb|?]; [|auto].
  destruct (eligible now a) eqn:Ea; [|auto].
  destruct best as [b|]; [|simplify_eq; auto].
  destruct (readyAt a <? readyAt b); simplify_eq; auto.
Qed.

Lemma pick_eligible (now : N) (lo : Loop) (t : Task) :
  pick now lo = Some t -> eligible now t = true.
Proof. intros Hp. apply earliest_eligible in Hp. destruct Hp; [discriminate|assumption]. Qed.

Lemma eligible_not_finished (now : N) (lo : Loop) (t : Task) :
  eligible now t = true -> tasks lo !! task_id t = Some t ->
  finished (task_id t) lo = false.
Proof.
  unfold eligible, finished. intros He ->. destruct (state t); congruence.
Qed.

Lemma finished_execute (now : N) (t : Task) (o : Outcome) (lo : Loop) (i : nat) :
  tasks lo !! task_id t = Some t ->
  finished i (execute now t o lo)
  = if decide (i = task_id t) then true else finished i lo.
Proof.
  intros Ht. pose proof (lookup_lt_Some _ _ _ Ht) as Hlt.
  destruct (tasks_execute now t o lo) as (again & Heq & Hagain).
  unfold finished. rewrite Heq.
  destruct (decide (i < length (tasks lo))%nat) as [Hi|Hi].
  - rewrite lookup_app_l by (rewrite length_insert; lia).
    destruct (decide (i = task_id t)) as [->|Hne].
    + now rewrite list_lookup_insert_eq.
    + now rewrite list_lookup_insert_ne.
  - destruct (decide (i = task_id t)) as [->|_]; [lia|].
    rewrite (lookup_ge_None_2 (tasks lo)) by lia.
    destruct Hagain as [->|(t' & -> & _ & Hst)].
    + rewrite app_nil_r, lookup_ge_None_2; [reflexivity|rewrite length_insert; lia].
    + destruct ((_ ++ [t']) !! i) as [x|] eqn:E; [|reflexivity].
      apply lookup_snoc_Some in E. destruct E as [[E _]|[_ <-]].
      * rewrite length_insert in E. lia.
      * now rewrite Hst.
Qed.

Lemma executed_ids_snoc (l : list Event) (e : Event) :
  executed_ids (l ++ [e])
  = executed_ids l ++ match e with EvExecuted i _ => [i] | _ => [] end.
Proof.
  induction l as [|x l IH]; simpl.
  - destruct e; reflexivity.
  - destruct x; simpl; now rewrite IH.
Qed.

Lemma In_executed_ids (l : list Event) (i : nat) :
  In i (executed_ids l) <-> ∃ o, In (EvExecuted i o) l.
Proof.
  induction l as [|x l IH]; simpl.
  - split; [intros []|intros [o []]].
  - split.
    + intros Hin. destruct x; simpl in Hin;
        try (apply IH in Hin; destruct Hin as [o ?]; eauto; fail).
      destruct Hin as [->|Hin]; [eauto|].
      apply IH in Hin. destruct Hin as [o' ?]. eauto.
    + intros [o [->|Hin]]; [simpl; auto|].
      assert (In i (executed_ids l)) by (apply IH; eauto).
      destruct x; simpl; auto.
Qed.

Lemma once_inv_init (id : string) : once_inv (NewCell id).
Proof. split; simpl; [constructor|intros i []]. Qed.

Lemma once_inv_step (s s' : State) (l : Label) :
  task_inv s -> once_inv s -> step s l = Some s' -> once_inv s'.
Proof.
  intros Ht [Hnd Hfin] Hstep.
  step_cases Hstep.
  all: unfold once_inv; simpl; rewrite ?executed_ids_snoc, ?app_nil_r.
  all: try (split; assumption).
  - (* the loop executes a task *)
    destruct (pick_lookup _ _ _ Heqo0) as [j Hj].
    destruct (Ht _ _ Hj) as [<- _].
    pose proof (eligible_not_finished _ _ _ (pick_eligible _ _ _ Heqo0) Hj) as Hnot.
    split.
    + apply list.NoDup_app. split; [assumption|].
      split; [|apply list.NoDup_singleton].
      intros x Hx ->%list_elem_of_singleton.
      apply list_elem_of_In, Hfin in Hx. congruence.
    + intros i Hin. rewrite (finished_execute _ _ _ _ _ Hj).
      destruct (decide (i = task_id t)); [reflexivity|].
      apply in_app_or in Hin. destruct Hin as [Hin|[?|[]]]; [auto|congruence].
  - unfold Add in *. simplify_eq. split; [assumption|].
    intros i Hin. pose proof (finished_Add (clock s) task (loop (cell s)) i) as Hf.
    simpl in Hf. rewrite Hf. auto.
  - split; [assumption|]. intros j Hin. rewrite finished_Ready_mark. auto.
Qed.

End ExecutedOnce.

(** X9.  With the loop as it is specified, no task is executed twice, the
    executed tasks are exactly the finished ones, and the task of a
    [CallAsync] that has returned is among them: its function was called
    once. *)
Theorem tasks_are_executed_once `{Host} (s : State) :
  reachable s ->
  NoDup (executed_ids (log s))
  ∧ (∀ i, In i (executed_ids (log s)) <-> finished i (loop (cell s)) = true)
  ∧ ∀ tid fn0 args0 i,
      calls s !! tid = Some (CallReturned fn0 args0 i) ->
      In i (executed_ids (log s)).
Proof.
  intros Hr.
  destruct (reachable_invariant s Hr) as (_ & _ & _ & Ht & Hc).
  assert (once_inv s) as [Hnd Hfin].
  { revert s Hr Ht Hc. apply (reachable_ind (fun s => _ -> _ -> once_inv s)).
    - intros id _ _. apply once_inv_init.
    - intros s l s' Hr' IH Hstep _ _.
      destruct (reachable_invariant s Hr') as (_ & _ & _ & Ht' & Hc').
      eapply once_inv_step; eauto. }
  split; [exact Hnd|]. split.
  - intros i. split; [apply Hfin|].
    unfold finished. intros Hf.
    destruct (tasks (loop (cell s)) !! i) as [t|] eqn:Hi; [|discriminate].
    destruct (state t) eqn:Hst; try discriminate.
    destruct (Ht _ _ Hi) as [_ Hd]. apply In_executed_ids. auto.
  - intros tid fn0 args0 i Hlk. pose proof (Hc _ _ Hlk) as (_ & [o Ho] & _).
    apply In_executed_ids. exists o.
    apply list_elem_of_In. eapply elem_of_sublist; [|exact Ho].
    apply list_elem_of_here.
Qed.

Lemma tasks_are_executed_once_witness :
  reachable (@after plain_host two_calls)
  ∧ NoDup (executed_ids (log (@after plain_host two_calls)))
  ∧ In 1%nat (executed_ids (log (@after plain_host two_calls))).
Proof.
  assert (reachable (@after plain_host two_calls)) as Hr.
  { exists "cell", two_calls. vm_compute. reflexivity. }
  split; [exact Hr|].
  destruct (tasks_are_executed_once _ Hr) as (Hnd & _ & Hret).
  split; [exact Hnd|].
  apply (Hret 0%nat (ValObject 1) []). vm_compute. reflexivity.
Defined.

Section Interpreter.
Context `{Host}.






End Interpreter.



